(** * news-analyzer: the selection pipeline and the archive store

    A shallow embedding of [main.py], [ai_processing.py] and [database.py].
    A DataFrame is a list of rows in index order; a column that is added to
    a frame is a field of the row record.  Python integers are [Z], Python
    dictionaries are [gmap], the set of archived urls is a [gset].

    Calls that leave the repository are parameters of the model:
    the date parser, the regular-expression matcher behind
    [Series.str.contains], the scoring service and the library sort behind
    [DataFrame.sort_values]. *)

From Stdlib Require Import ZArith Lia.
From stdpp Require Import gmap strings list fin_maps sorting.

Local Open Scope string_scope.
Local Open Scope Z_scope.
Local Open Scope list_scope.

(** ** Data model *)

(** A row as the source adapters deliver it: the five columns that
    [main] later writes to the archive.  [publish_time] is [None] when the
    cell is missing or is not a [str]. *)
Record Article := mkArticle {
  url : string;
  title : string;
  source : string;
  publish_time : option string;
  description : string
}.

(** A row once [ai_rank_and_classify_articles] has added the columns
    [importance_score] and [category]. *)
Record Scored := mkScored {
  art : Article;
  importance_score : Z;
  category : string
}.

#[global] Instance Article_eq_dec : EqDecision Article.
Proof. solve_decision. Defined.

#[global] Instance Scored_eq_dec : EqDecision Scored.
Proof. solve_decision. Defined.

(** The category the scoring step falls back to. *)
Definition UNKNOWN : string := "未知".

(** [DataFrame.drop_duplicates(subset=key, keep='first')]: walk the rows in
    index order and keep a row when its key has not been seen yet. *)
Fixpoint drop_duplicates_from {A K : Type} `{EqDecision K}
    (key : A → K) (seen : list K) (df : list A) : list A :=
  match df with
  | [] => []
  | row :: rest =>
      if decide (key row ∈ seen) then drop_duplicates_from key seen rest
      else row :: drop_duplicates_from key (key row :: seen) rest
  end.

Definition drop_duplicates {A K : Type} `{EqDecision K}
    (key : A → K) (df : list A) : list A :=
  drop_duplicates_from key [] df.

(** ** database.py *)

Module DatabaseManager.

(** One row of the table [articles] without its primary key. *)
Record Entry := mkEntry {
  e_title : string;
  e_source : string;
  e_publish_time : option string;
  e_description : string;
  insert_timestamp : Z
}.

(** The table: [url TEXT PRIMARY KEY] makes it a finite map from url. *)
Abbreviation Table := (gmap string Entry).

Definition entry_of (now : Z) (a : Article) : Entry :=
  mkEntry (title a) (source a) (publish_time a) (description a) now.

(** [get_existing_urls]: [set(df['url'])] of [SELECT url FROM articles]. *)
Definition get_existing_urls (tbl : Table) : gset string := dom tbl.

(** [DataFrame.to_sql(..., if_exists='append')]: the rows are inserted one
    after the other inside one transaction.  An insert whose url is already
    a key violates the primary key and raises; [None] is that exception. *)
Fixpoint insert_rows (now : Z) (tbl : Table) (df : list Article)
    : option Table :=
  match df with
  | [] => Some tbl
  | row :: rest =>
      match tbl !! url row with
      | Some _ => None
      | None => insert_rows now (<[url row := entry_of now row]> tbl) rest
      end
  end.

Definition to_sql := insert_rows.

(** [write_new_articles]: nothing to do for an empty frame; otherwise
    stamp the rows and append them.  The [except Exception] branch logs
    and returns, and the transaction that raised is rolled back, so the
    table is the one from before the call. *)
Definition write_new_articles (now : Z) (tbl : Table) (df : list Article)
    : Table :=
  match df with
  | [] => tbl
  | _ =>
      match to_sql now tbl df with
      | Some tbl' => tbl'
      | None => tbl
      end
  end.

(** [clean_old_articles]: no-op unless [days_to_keep > 0]; otherwise
    delete the rows whose [insert_timestamp] is before the cutoff.
    [cutoff_timestamp] is the value of line 86,
    [int((datetime.now() - timedelta(days=days_to_keep)).timestamp())]:
    the library subtracts the days from the local wall-clock time and
    converts the result back, so the value is an input of the model and
    not a fixed number of seconds before the clock reading.  When the
    computation raises, the [except Exception] branch logs and returns
    with the table as it is; that is the result for a cutoff that no
    stored timestamp precedes. *)
Definition clean_old_articles (cutoff_timestamp : Z) (days_to_keep : Z)
    (tbl : Table) : Table :=
  if decide (0 < days_to_keep) then
    filter (λ kv, ¬ (insert_timestamp kv.2 < cutoff_timestamp)) tbl
  else tbl.

End DatabaseManager.

(** ** ai_processing.py *)

(** One object of the JSON array the scoring service answers with. *)
Record ResultItem := mkItem {
  item_title : string;
  item_score : Z;
  item_category : string
}.

(** What happens inside the [try] of [ai_rank_and_classify_articles]:
    the call raises (no API key, network, quota), or the text is not the
    JSON the code expects ([json.loads] or the dict comprehension raises),
    or a list of result objects comes back. *)
Inductive ScoringOutcome :=
| Raises
| Unparseable
| Results (items : list ResultItem).

(** [{item['title']: {...} for item in results_list}]: a later object
    with the same title overwrites an earlier one. *)
Definition result_map (items : list ResultItem) : gmap string (Z * string) :=
  foldl (λ m it, <[item_title it := (item_score it, item_category it)]> m)
        ∅ items.

Section Pipeline.

(** The scoring service, asked with the unique titles of the batch. *)
Variable scoring_service : list string → ScoringOutcome.

(** [dateutil_parse(s).astimezone().date()] as a day number; [None] when
    the parse raises one of the caught exceptions. *)
Variable local_date_of : string → option Z.

(** [Series.str.contains(pat, case=False, na=False)] on one title. *)
Variable str_contains : string → string → bool.

(** [DataFrame.sort_values(by='importance_score', ascending=False)]. *)
Variable sort_values : list Scored → list Scored.

(** [ai_rank_and_classify_articles]. An empty frame is returned as it
    is.  Otherwise the unique titles go to the service; on [Results] each
    row gets the score and category listed for its title, 0 and
    [UNKNOWN] when the title is not listed; the [except] branch sets 0
    and [UNKNOWN] on every row. *)
Definition ai_rank_and_classify_articles (df : list Article) : list Scored :=
  match df with
  | [] => []
  | _ =>
      let unique_titles := title <$> drop_duplicates title df in
      match scoring_service unique_titles with
      | Results items =>
          let m := result_map items in
          (λ a, mkScored a (default 0 (fst <$> m !! title a))
                           (default UNKNOWN (snd <$> m !! title a))) <$> df
      | Raises | Unparseable =>
          (λ a, mkScored a 0 UNKNOWN) <$> df
      end
  end.

(** ** main.py: the frequency bonus (lines 258-260) *)

(** [groupby('title')]: the size of each title's group. *)
Definition group_sizes (df : list Scored) : gmap string Z :=
  foldr (λ r m, <[title (art r) := default 0 (m !! title (art r)) + 1]> m)
        ∅ df.

(** [.transform('count')]: every row gets the size of its group. *)
Definition title_counts (df : list Scored) : list Z :=
  (λ r, default 0 (group_sizes df !! title (art r))) <$> df.

(** [(title_counts - 1).clip(upper=2)]. *)
Definition frequency_bonus (df : list Scored) : list Z :=
  (λ c, Z.min (c - 1) 2) <$> title_counts df.

(** [classified_df['importance_score'] += frequency_bonus]. *)
Definition add_frequency_bonus (df : list Scored) : list Scored :=
  zip_with (λ r b, mkScored (art r) (importance_score r + b) (category r))
           df (frequency_bonus df).

(** ** main.py: [apply_force_keep_rules] (lines 30-63) *)

(** A rule is a dictionary read from the configuration: [rule.get('type')],
    and the keys ['values'] and ['conditions'] when present. *)
Record Rule := mkRule {
  rule_type : option string;
  values : option (list string);
  conditions : option (list (string * string))
}.

(** One pass of [for key, value in rule['conditions'].items()] on the
    row's cell of [composite_mask]; a key other than the three is
    skipped. *)
Definition condition_mask (row : Scored) (m : bool) (kv : string * string)
    : bool :=
  if decide (kv.1 = "source") then m && bool_decide (source (art row) = kv.2)
  else if decide (kv.1 = "category") then m && bool_decide (category row = kv.2)
  else if decide (kv.1 = "keyword") then m && str_contains kv.2 (title (art row))
  else m.

(** One pass of [for rule in rules] on the row's cell of
    [force_keep_mask]; a rule of another type, or one that lacks its
    key, changes nothing. *)
Definition rule_mask (row : Scored) (m : bool) (rule : Rule) : bool :=
  match rule_type rule, values rule, conditions rule with
  | Some "keyword", Some keywords, _ =>
      m || str_contains (String.concat "|" keywords) (title (art row))
  | Some "source", Some sources, _ =>
      m || bool_decide (source (art row) ∈ sources)
  | Some "category", Some categories, _ =>
      m || bool_decide (category row ∈ categories)
  | Some "composite", _, Some conds =>
      m || foldl (condition_mask row) true conds
  | _, _, _ => m
  end.

Definition force_keep_mask (rules : list Rule) (row : Scored) : bool :=
  foldl (rule_mask row) false rules.

Definition apply_force_keep_rules (df : list Scored) (rules : list Rule)
    : list Scored * list Scored :=
  match df, rules with
  | [], _ | _, [] => ([], df)
  | _, _ =>
      (filter (λ r, force_keep_mask rules r = true) df,
       filter (λ r, ¬ force_keep_mask rules r = true) df)
  end.

(** ** main.py: the quota walk (lines 270-284) *)

(** The loop over the ranked candidates with its two accumulators,
    [quota_selection] and [category_counts].  [category_counts] has the
    keys of [CATEGORY_QUOTAS], so the lookup [CATEGORY_QUOTAS[cat]] of a
    counted category finds its quota; the model leaves the row out
    where the dictionary would have no such key. *)
Fixpoint quota_walk (CATEGORY_QUOTAS : gmap string Z) (total_limit : Z)
    (rows : list Scored) (quota_selection : list Scored)
    (category_counts : gmap string Z) : list Scored :=
  match rows with
  | [] => quota_selection
  | row :: rest =>
      if decide (total_limit ≤ Z.of_nat (length quota_selection))
      then quota_selection
      else
        let cat := category row in
        match category_counts !! cat with
        | Some n =>
            match CATEGORY_QUOTAS !! cat with
            | Some q =>
                if decide (n < q) then
                  quota_walk CATEGORY_QUOTAS total_limit rest
                    (quota_selection ++ [row]) (<[cat := n + 1]> category_counts)
                else
                  quota_walk CATEGORY_QUOTAS total_limit rest
                    quota_selection category_counts
            | None =>
                quota_walk CATEGORY_QUOTAS total_limit rest
                  quota_selection category_counts
            end
        | None =>
            quota_walk CATEGORY_QUOTAS total_limit rest
              (quota_selection ++ [row]) category_counts
        end
  end.

(** [quota_selection = []], [{cat: 0 for cat in CATEGORY_QUOTAS.keys()}]
    and the walk. *)
Definition quota_select (CATEGORY_QUOTAS : gmap string Z) (total_limit : Z)
    (ranked_candidates : list Scored) : list Scored :=
  quota_walk CATEGORY_QUOTAS total_limit ranked_candidates []
             ((λ _, 0) <$> CATEGORY_QUOTAS).

(** [sum(CATEGORY_QUOTAS.values())]. *)
Definition sum_values (CATEGORY_QUOTAS : gmap string Z) : Z :=
  map_fold (λ _ q acc, q + acc) 0 CATEGORY_QUOTAS.

(** The columns of [drop_duplicates(subset=['url', 'title'])]. *)
Definition row_key (r : Scored) : string * string :=
  (url (art r), title (art r)).

(** Lines 264-290: partition, ranking, quota walk, merge, final dedup. *)
Definition final_list (rules : list Rule) (CATEGORY_QUOTAS : gmap string Z)
    (total_limit : Z) (classified : list Scored) : list Scored :=
  let '(forced, candidates) := apply_force_keep_rules classified rules in
  let ranked_candidates := sort_values candidates in
  let quota_selection := quota_select CATEGORY_QUOTAS total_limit ranked_candidates in
  drop_duplicates row_key (forced ++ quota_selection).

(** ** main.py: [main] (lines 146-329) *)

(** The values [main] reads from the configuration. *)
Record Config := mkConfig {
  FORCE_KEEP_RULES : list Rule;
  CATEGORY_QUOTAS : gmap string Z;
  TOTAL_LIMIT : Z;
  retention_enabled : bool;
  days_to_keep : Z
}.

(** Line 202: the rows whose url is not archived yet. *)
Definition new_articles (existing_urls : gset string) (raw : list Article)
    : list Article :=
  filter (λ a, url a ∉ existing_urls) raw.

(** Lines 217-230: the body of the date loop for one row. *)
Definition published_today (today : Z) (row : Article) : bool :=
  match publish_time row with
  | None => false
  | Some s =>
      if decide (s = "") then false
      else match local_date_of s with
           | Some d => bool_decide (d = today)
           | None => false
           end
  end.

Definition date_filter (today : Z) (df : list Article) : list Article :=
  filter (λ a, published_today today a = true) df.

(** Lines 202-248 together: [today_new_articles_df] after the title
    dedup. *)
Definition today_new_articles (today : Z) (existing_urls : gset string)
    (raw : list Article) : list Article :=
  drop_duplicates title (date_filter today (new_articles existing_urls raw)).

(** Line 254: [classified_df['category'].eq('未知').all()]; the other
    disjunct, a frame without the column, is the empty frame, on which
    [all] is true as well. *)
Definition scoring_failed (classified : list Scored) : bool :=
  forallb (λ r, bool_decide (category r = UNKNOWN)) classified.

(** Lines 209-211 and 317-319. *)
Definition retention (cfg : Config) (cutoff_timestamp : Z)
    (tbl : DatabaseManager.Table) : DatabaseManager.Table :=
  if retention_enabled cfg
  then DatabaseManager.clean_old_articles cutoff_timestamp
         (days_to_keep cfg) tbl
  else tbl.

(** Line 284: the rows the quota walk selects from the ranked
    candidates. *)
Definition quota_selection_df (rules : list Rule)
    (CATEGORY_QUOTAS : gmap string Z) (total_limit : Z)
    (classified : list Scored) : list Scored :=
  quota_select CATEGORY_QUOTAS total_limit
    (sort_values (apply_force_keep_rules classified rules).2).

(** Line 293 reads the column [category] of the merged frame.
    [forced_df] is the [pd.DataFrame()] of line 35, a frame without
    columns, when the frame is empty or the rule list is; a
    [pd.DataFrame] of an empty [quota_selection] has no columns either;
    the concat of two such frames has none, and the lookup raises
    [KeyError].  In every other case one of the two frames carries the
    columns of [classified_df]. *)
Definition category_column_missing (rules : list Rule)
    (CATEGORY_QUOTAS : gmap string Z) (total_limit : Z)
    (classified : list Scored) : bool :=
  bool_decide (classified = [] ∨ rules = [])
  && bool_decide
       (quota_selection_df rules CATEGORY_QUOTAS total_limit classified = []).

(** Where [main] ends: at one of its four early returns, with the
    uncaught [KeyError] of line 293, or at its last line with a final
    list. *)
Inductive Exit :=
| NoData
| NoNewArticles
| NoTodayArticles
| ScoringFailed
| CategoryKeyError
| Done (final_list_df : list Scored).

(** What a run leaves behind: where it ended, the table right after
    [write_new_articles] (line 314) and the table when the run ends. *)
Record Run := mkRun {
  exit : Exit;
  written : DatabaseManager.Table;
  closed : DatabaseManager.Table
}.

(** [main].  [results] are the frames of the adapters in the order the
    pool completes them; [t_write] is the clock reading of
    [write_new_articles] and [t_clean] the cutoff [clean_old_articles]
    computes from its own clock reading.
    [ai_rank_and_classify_articles] adds its columns to the frame it is
    given, so [today_new_articles_df] and [classified_df] are one object
    and line 313 selects the five archive columns from the scored frame.
    The [KeyError] of line 293 ends the run before the write of line 314
    and before the retention step. *)
Definition main (cfg : Config) (today t_write t_clean : Z)
    (tbl : DatabaseManager.Table) (results : list (list Article)) : Run :=
  let existing_urls := DatabaseManager.get_existing_urls tbl in
  let all_articles_raw := filter (λ df, df ≠ []) results in
  match all_articles_raw with
  | [] => mkRun NoData tbl tbl
  | _ =>
    let raw_combined_df := concat all_articles_raw in
    match new_articles existing_urls raw_combined_df with
    | [] => mkRun NoNewArticles tbl (retention cfg t_clean tbl)
    | new_articles_df =>
      match date_filter today new_articles_df with
      | [] => mkRun NoTodayArticles tbl tbl
      | filtered_articles =>
        let today_new_articles_df := drop_duplicates title filtered_articles in
        let classified_df := ai_rank_and_classify_articles today_new_articles_df in
        if scoring_failed classified_df then mkRun ScoringFailed tbl tbl
        else
          let classified_df := add_frequency_bonus classified_df in
          let final_list_df :=
            final_list (FORCE_KEEP_RULES cfg) (CATEGORY_QUOTAS cfg)
                       (TOTAL_LIMIT cfg) classified_df in
          if category_column_missing (FORCE_KEEP_RULES cfg)
               (CATEGORY_QUOTAS cfg) (TOTAL_LIMIT cfg) classified_df
          then mkRun CategoryKeyError tbl tbl
          else
            let articles_to_db := art <$> classified_df in
            let tbl' :=
              DatabaseManager.write_new_articles t_write tbl articles_to_db in
            mkRun (Done final_list_df) tbl' (retention cfg t_clean tbl')
      end
    end
  end.

End Pipeline.

(** ** ai_processing.py: [ai_summarize_content] (lines 152-190)

    [len] and slicing count characters, so the text of an article is
    the list of its code points. *)

Abbreviation Text := (list N).

(** The three dots appended to a cut text. *)
Definition ELLIPSIS : Text := [46%N; 46%N; 46%N].

(** [x[:200] + "..." if len(x) > 200 else x], the fallback of lines 165
    and 186. *)
Definition truncated (x : Text) : Text :=
  if decide (200 < length x)%nat then take 200 x ++ ELLIPSIS else x.

Section Summaries.

(** The rows of the frame and their column [full_content]. *)
Context {Row : Type} (full_content : Row → Text).

(** [configure_and_get_model()] returned a model ([true]) or raised. *)
Variable model_ready : bool.

(** [model.generate_content(get_summary_prompt(content)).text.strip()];
    [None] when the call raises. *)
Variable summarize : Text → option Text.

(** The body of the loop of lines 171-186 for one row. *)
Definition summary_of (content : Text) : Text :=
  if decide (content = [] ∨ length content < 50)%nat then content
  else match summarize content with
       | Some summary => summary
       | None => truncated content
       end.

(** The column [summarized_content] the function assigns. *)
Definition summaries (df : list Row) : list Text :=
  if model_ready then (λ r, summary_of (full_content r)) <$> df
  else (λ r, truncated (full_content r)) <$> df.

(** [ai_summarize_content]: the frame with its new column; an empty
    frame gets the column and no row. *)
Definition ai_summarize_content (df : list Row) : list (Row * Text) :=
  match df with
  | [] => []
  | _ => zip df (summaries df)
  end.

End Summaries.

(** ** main.py: [parse_single_source] (lines 120-144) *)

(** The keys of a site's configuration the worker reads. *)
Record SiteConfig := mkSite {
  site_name : string;
  parser_class : option string
}.

Section Sources.

(** [getattr(parsers, parser_class_name, None)] when it is a subclass of
    [BaseParser]: the [parse] of that class, which returns a frame or
    raises ([None]). *)
Variable parsers : string → option (SiteConfig → option (list Article)).

(** [parse_single_source]: an empty frame when the site names no parser
    class, when the name is not a parser, and when the parser raises. *)
Definition parse_single_source (site_config : SiteConfig) : list Article :=
  match parser_class site_config with
  | None => []
  | Some parser_class_name =>
      if decide (parser_class_name = "") then []
      else match parsers parser_class_name with
           | None => []
           | Some parse =>
               match parse site_config with
               | Some articles_df => articles_df
               | None => []
               end
           end
  end.

End Sources.

(** ** Sample collaborators and inputs

    Concrete stand-ins for the four parameters, used to run the model on
    sample batches. *)

(** A service that is down, and one that answers with a fixed list. *)
Definition service_down : list string → ScoringOutcome := λ _, Raises.

Definition service_garbled : list string → ScoringOutcome := λ _, Unparseable.

Definition service_answers (items : list ResultItem)
    : list string → ScoringOutcome := λ _, Results items.

(** Two timestamps of day 1 and one of day 0; anything else does not
    parse. *)
Definition sample_dates (s : string) : option Z :=
  if decide (s = "2025-08-13T09:00:00+08:00") then Some 1
  else if decide (s = "2025-08-13T18:30:00+08:00") then Some 1
  else if decide (s = "2025-08-12T23:00:00+08:00") then Some 0
  else None.

(** A pattern without metacharacters matches where it occurs in the text. *)
Definition contains_literal (pat text : string) : bool :=
  match String.index 0 pat text with Some _ => true | None => false end.

(** What the call of line 268 promises whichever algorithm runs: the
    candidates again, in non-increasing score order. *)
Definition score_ge (x y : Scored) : Prop :=
  importance_score y ≤ importance_score x.

Definition ranks (sortv : list Scored → list Scored) : Prop :=
  ∀ l, sortv l ≡ₚ l ∧ Sorted score_ge (sortv l).

(** Whether [r] is put in front of [x]: rows with the same score go in
    front ([ties_first]) or behind. *)
Definition goes_before (ties_first : bool) (r x : Scored) : bool :=
  if ties_first
  then bool_decide (importance_score x ≤ importance_score r)
  else bool_decide (importance_score x < importance_score r).

(** Insertion into a list in non-increasing score order. *)
Fixpoint insert_desc (ties_first : bool) (r : Scored) (l : list Scored)
    : list Scored :=
  match l with
  | [] => [r]
  | x :: rest =>
      if goes_before ties_first r x then r :: l
      else x :: insert_desc ties_first r rest
  end.

(** Insertion sort from the right: rows with equal scores keep their
    order. *)
Definition sort_desc (l : list Scored) : list Scored :=
  foldr (insert_desc true) [] l.

(** The same with ties inserted behind: rows with equal scores come out
    in reverse order. *)
Definition sort_desc_ties_reversed (l : list Scored) : list Scored :=
  foldr (insert_desc false) [] l.

Definition T1 := "2025-08-13T09:00:00+08:00".
Definition T2 := "2025-08-13T18:30:00+08:00".
Definition T0 := "2025-08-12T23:00:00+08:00".

Definition a_chip : Article :=
  mkArticle "http://a" "Chip export rules tighten" "Reuters" (Some T1) "d1".
Definition b_chip : Article :=
  mkArticle "http://b" "Chip export rules tighten" "BBC" (Some T2) "d2".
Definition c_flood : Article :=
  mkArticle "http://c" "Flood warning issued" "BBC" (Some T1) "d3".
Definition d_old : Article :=
  mkArticle "http://d" "Yesterday's match report" "ESPN" (Some T0) "d4".
Definition e_chip : Article :=
  mkArticle "http://e" "Chip export rules tighten" "AP" (Some T1) "d5".
Definition f_vote : Article :=
  mkArticle "http://f" "Council vote delayed" "AP" (Some T2) "d6".

Definition sample_items : list ResultItem :=
  [ mkItem "Chip export rules tighten" 7 "科技与商业";
    mkItem "Flood warning issued" 5 "社会与文化";
    mkItem "Council vote delayed" 3 "国内政策" ].

Definition sample_quotas : gmap string Z :=
  <["科技与商业" := 1]> (<["社会与文化" := 1]> ∅).

Definition sample_rules : list Rule :=
  [ mkRule (Some "keyword") (Some ["Flood"]) None;
    mkRule (Some "composite") None (Some [("source", "AP"); ("category", "国内政策")]) ].

Definition sample_config : Config :=
  mkConfig sample_rules sample_quotas 2 true 7.

(** Five candidates of one category in descending score order. *)
Definition tech (n : Z) : Scored :=
  mkScored (mkArticle "http://t" "t" "s" (Some T1) "d") n "tech".

Definition tech_candidates : list Scored :=
  [tech 9; tech 8; tech 7; tech 6; tech 5].

Definition tech_quota : gmap string Z := <["tech" := 2]> ∅.

(** An archive that already holds the urls of [a_chip] and [b_chip]. *)
Definition sample_archive : DatabaseManager.Table :=
  <["http://a" := DatabaseManager.entry_of 5 a_chip]>
    (<["http://b" := DatabaseManager.entry_of 5 b_chip]> ∅).

Definition sample_main :=
  main (service_answers sample_items) sample_dates contains_literal sort_desc.

(** A registry with one working parser and one that raises, and two
    sites. *)
Definition sample_parsers (name : string)
    : option (SiteConfig → option (list Article)) :=
  if decide (name = "StandardRSSParser") then Some (λ _, Some [a_chip; c_flood])
  else if decide (name = "BrokenParser") then Some (λ _, None)
  else None.

Definition site_ok : SiteConfig := mkSite "Reuters" (Some "StandardRSSParser").
Definition site_broken : SiteConfig := mkSite "Broken" (Some "BrokenParser").

(** A text of 250 characters, one of 10, and a summarisation service
    whose every call raises. *)
Definition long_text : Text := replicate 250 65%N.
Definition short_text : Text := replicate 10 66%N.
Definition service_silent : Text → option Text := λ _, None.

(** * Properties *)

(** Case analysis on the rows of a frame that is given row by row. *)
Ltac each_row H :=
  repeat (apply elem_of_cons in H as [->|H]);
  [..|by apply elem_of_nil in H].

(** Membership and other decidable facts about concrete tables. *)
Ltac by_evaluation := apply (bool_decide_unpack _); by vm_compute.

(** ** Archive store and incremental filter *)

Section Ingestion.

Implicit Types (tbl : DatabaseManager.Table) (raw : list Article).

Lemma elem_of_new_articles (existing : gset string) raw a :
  a ∈ new_articles existing raw ↔ a ∈ raw ∧ url a ∉ existing.
Proof. unfold new_articles. rewrite list_elem_of_filter. tauto. Qed.

Lemma new_articles_all_archived (existing : gset string) raw :
  (∀ a, a ∈ raw → url a ∈ existing) → new_articles existing raw = [].
Proof.
  intros Hall. induction raw as [|a raw IH]; [done|].
  unfold new_articles. rewrite filter_cons.
  destruct (decide (url a ∉ existing)) as [Hn|_].
  - exfalso. apply Hn, Hall. left.
  - apply IH. intros b Hb. apply Hall. by right.
Qed.

(** C4. Every row whose url is in the set read from the archive is
    dropped by the incremental filter and no other row is; when the
    archive holds the url of every fetched row, no row is new and [main]
    returns at the "no new articles" exit (or, with nothing fetched, at
    the "no data" exit) without scoring anything. *)
Theorem incremental_filter_idempotent
    svc dates contains sortv cfg today t_write t_clean tbl results :
  let existing := DatabaseManager.get_existing_urls tbl in
  let raw := concat (filter (λ df, df ≠ []) results) in
  (∀ a, a ∈ new_articles existing raw ↔ a ∈ raw ∧ url a ∉ dom tbl) ∧
  ((∀ a, a ∈ raw → url a ∈ dom tbl) →
     new_articles existing raw = [] ∧
     (exit (main svc dates contains sortv cfg today t_write t_clean tbl results)
        = NoNewArticles ∨
      exit (main svc dates contains sortv cfg today t_write t_clean tbl results)
        = NoData)).
Proof.
  intros existing raw. split; [intros a; apply elem_of_new_articles|].
  intros Hall.
  assert (Hnil : new_articles existing raw = [])
    by (by apply new_articles_all_archived).
  split; [done|].
  unfold main. fold existing. fold raw.
  destruct (filter (λ df, df ≠ []) results) eqn:Hres; [by right|].
  rewrite Hnil. by left.
Qed.

Lemma incremental_filter_idempotent_witness :
  (∀ a, a ∈ [a_chip; b_chip] → url a ∈ dom sample_archive) ∧
  new_articles (DatabaseManager.get_existing_urls sample_archive)
               [a_chip; b_chip] = [] ∧
  exit (sample_main sample_config 1 1000 1001 sample_archive
          [[a_chip; b_chip]; []]) = NoNewArticles.
Proof.
  assert (Hall : ∀ a, a ∈ [a_chip; b_chip] → url a ∈ dom sample_archive).
  { intros a Ha. apply (bool_decide_unpack _).
    apply elem_of_cons in Ha as [->|Ha]; [by vm_compute|].
    apply elem_of_cons in Ha as [->|Ha]; [by vm_compute|].
    by apply elem_of_nil in Ha. }
  split; [exact Hall|].
  destruct (incremental_filter_idempotent
              (service_answers sample_items) sample_dates contains_literal
              sort_desc sample_config 1 1000 1001 sample_archive
              [[a_chip; b_chip]; []]) as [_ H].
  destruct (H Hall) as [Hnil Hexit]. split; [exact Hnil|].
  destruct Hexit as [Hexit|Hexit]; [exact Hexit|].
  vm_compute in Hexit. discriminate Hexit.
Defined.

End Ingestion.

(** ** Force-keep partition *)

Section ForceKeep.

Variable str_contains : string → string → bool.

Local Abbreviation mask := (force_keep_mask str_contains).
Local Abbreviation split_rules := (apply_force_keep_rules str_contains).

Lemma force_keep_mask_no_rules r : mask [] r = false.
Proof. reflexivity. Qed.

(** Whatever the early return, the two frames are the two filters. *)
Lemma apply_force_keep_rules_filters df rules :
  split_rules df rules =
    (filter (λ r, mask rules r = true) df,
     filter (λ r, ¬ mask rules r = true) df).
Proof.
  destruct df as [|r df]; [by destruct rules|].
  destruct rules as [|rule rules]; [|done].
  unfold apply_force_keep_rules. generalize (r :: df). intros l. f_equal.
  - induction l as [|x l IH]; [done|].
    rewrite filter_cons. by destruct (decide _).
  - induction l as [|x l IH]; [done|].
    rewrite filter_cons. destruct (decide _) as [|Hn]; [by f_equal|].
    exfalso. apply Hn. by cbn.
Qed.

(** C10. [apply_force_keep_rules] splits the rows into two frames that
    together are the input (as a multiset, each in input order): a row is
    forced exactly when the mask holds for it and a candidate exactly
    when it does not, so no row is in both or in neither.  For an
    empty frame or an empty rule list the forced frame is empty and the
    candidates are the input unchanged. *)
Theorem force_keep_partition df rules :
  let forced := (apply_force_keep_rules str_contains df rules).1 in
  let candidates := (apply_force_keep_rules str_contains df rules).2 in
  (∀ r, r ∈ forced ↔ r ∈ df ∧ force_keep_mask str_contains rules r = true) ∧
  (∀ r, r ∈ candidates ↔
        r ∈ df ∧ force_keep_mask str_contains rules r = false) ∧
  (∀ r, ¬ (r ∈ forced ∧ r ∈ candidates)) ∧
  forced ++ candidates ≡ₚ df ∧
  forced `sublist_of` df ∧ candidates `sublist_of` df ∧
  (length forced + length candidates = length df)%nat ∧
  (df = [] ∨ rules = [] → forced = [] ∧ candidates = df).
Proof.
  cbv zeta. rewrite apply_force_keep_rules_filters. cbn [fst snd].
  set (forced := filter (λ r, mask rules r = true) df).
  set (candidates := filter (λ r, ¬ mask rules r = true) df).
  assert (Hperm : forced ++ candidates ≡ₚ df) by apply filter_app_complement.
  assert (Hin_f : ∀ r, r ∈ forced ↔ r ∈ df ∧ mask rules r = true).
  { intros r. unfold forced. rewrite list_elem_of_filter. tauto. }
  assert (Hin_c : ∀ r, r ∈ candidates ↔ r ∈ df ∧ mask rules r = false).
  { intros r. unfold candidates. rewrite list_elem_of_filter.
    destruct (mask rules r); intuition congruence. }
  split; [exact Hin_f|]. split; [exact Hin_c|].
  split. { intros r [[_ H1]%Hin_f [_ H2]%Hin_c]. congruence. }
  split; [exact Hperm|].
  split; [apply sublist_filter|]. split; [apply sublist_filter|].
  split. { apply Permutation_length in Hperm. by rewrite length_app in Hperm. }
  intros Hedge.
  assert (Hnone : ∀ r, r ∈ df → mask rules r = false).
  { intros r Hr. destruct Hedge as [->| ->]; [by apply elem_of_nil in Hr|done]. }
  split.
  - unfold forced. clear -Hnone. induction df as [|x l IH]; [done|].
    rewrite filter_cons. rewrite (Hnone x) by left. cbn.
    destruct (decide _); [done|]. apply IH. intros r Hr. apply Hnone. by right.
  - unfold candidates. clear -Hnone. induction df as [|x l IH]; [done|].
    rewrite filter_cons. rewrite (Hnone x) by left.
    destruct (decide _) as [|Hn]; [|by destruct Hn].
    f_equal. apply IH. intros r Hr. apply Hnone. by right.
Qed.

End ForceKeep.

Lemma force_keep_partition_witness :
  (([] : list Scored) = [] ∨ sample_rules = []) ∧
  (apply_force_keep_rules contains_literal [] sample_rules).1 = [] ∧
  (apply_force_keep_rules contains_literal [] sample_rules).2 = [].
Proof.
  assert (H : ([] : list Scored) = [] ∨ sample_rules = []) by (left; reflexivity).
  split; [exact H|].
  exact (proj2 (proj2 (proj2 (proj2 (proj2 (proj2 (proj2
    (force_keep_partition contains_literal [] sample_rules))))))) H).
Defined.

(** ** Frequency bonus *)

Section FrequencyBonus.

Implicit Types (df : list Scored) (r : Scored) (t : string).

(** The number of rows of [df] whose title is [t]. *)
Local Abbreviation occurrences t df :=
  (Z.of_nat (length (filter (λ x, title (art x) = t) df))).

Lemma group_sizes_cons r df :
  group_sizes (r :: df) =
    <[title (art r) := default 0 (group_sizes df !! title (art r)) + 1]>
      (group_sizes df).
Proof. reflexivity. Qed.

(** The dictionary of group sizes holds, for each title, how often the
    title occurs. *)
Lemma group_sizes_lookup df t :
  default 0 (group_sizes df !! t) = occurrences t df.
Proof.
  induction df as [|r df IH]; [done|].
  rewrite group_sizes_cons, filter_cons.
  destruct (decide (title (art r) = t)) as [->|Hne].
  - rewrite lookup_insert_eq. cbn. rewrite IH. lia.
  - by rewrite lookup_insert_ne.
Qed.

Lemma occurrences_pos df r : r ∈ df → 1 ≤ occurrences (title (art r)) df.
Proof.
  intros Hr.
  assert (Hin : r ∈ filter (λ x, title (art x) = title (art r)) df)
    by (by apply list_elem_of_filter).
  destruct (filter _ df); [by apply elem_of_nil in Hin|]. cbn [length]. lia.
Qed.

Lemma title_counts_lookup df i r :
  df !! i = Some r →
  title_counts df !! i = Some (occurrences (title (art r)) df).
Proof.
  intros Hi. unfold title_counts.
  by rewrite list_lookup_fmap, Hi, <- group_sizes_lookup.
Qed.

(** The bonus of the row at index [i] and the row the step makes of it. *)
Lemma add_frequency_bonus_lookup df i r :
  df !! i = Some r →
  frequency_bonus df !! i
    = Some (Z.min (occurrences (title (art r)) df - 1) 2) ∧
  add_frequency_bonus df !! i
    = Some (mkScored (art r)
              (importance_score r + Z.min (occurrences (title (art r)) df - 1) 2)
              (category r)).
Proof.
  intros Hi. pose proof (title_counts_lookup _ _ _ Hi) as Hc.
  assert (Hb : frequency_bonus df !! i
               = Some (Z.min (occurrences (title (art r)) df - 1) 2)).
  { unfold frequency_bonus. by rewrite list_lookup_fmap, Hc. }
  split; [exact Hb|].
  unfold add_frequency_bonus. rewrite lookup_zip_with, Hi. cbn.
  by rewrite Hb.
Qed.

(** C8. The row at index [i] leaves the bonus step with its score raised
    by [min(n - 1, 2)], where [n] is the number of rows of the frame with
    its title, and with nothing else changed; the amount added is at
    least 0 and at most 2. *)
Theorem frequency_bonus_bound df i r :
  df !! i = Some r →
  ∃ b,
    frequency_bonus df !! i = Some b ∧
    add_frequency_bonus df !! i
      = Some (mkScored (art r) (importance_score r + b) (category r)) ∧
    b = Z.min (occurrences (title (art r)) df - 1) 2 ∧
    0 ≤ b ≤ 2.
Proof.
  intros Hi. destruct (add_frequency_bonus_lookup df i r Hi) as [Hb Hrow].
  exists (Z.min (occurrences (title (art r)) df - 1) 2).
  split; [exact Hb|]. split; [exact Hrow|]. split; [reflexivity|].
  assert (Hr : r ∈ df) by (apply list_elem_of_lookup; eauto).
  pose proof (occurrences_pos df r Hr). lia.
Qed.

Lemma length_add_frequency_bonus df :
  length (add_frequency_bonus df) = length df.
Proof.
  unfold add_frequency_bonus, frequency_bonus, title_counts.
  rewrite length_zip_with, !length_fmap. lia.
Qed.

Lemma art_add_frequency_bonus df : art <$> add_frequency_bonus df = art <$> df.
Proof.
  apply list_eq. intros i. rewrite !list_lookup_fmap.
  destruct (df !! i) as [r|] eqn:Hi.
  - by destruct (add_frequency_bonus_lookup df i r Hi) as [_ ->].
  - apply lookup_ge_None in Hi.
    rewrite (proj2 (lookup_ge_None _ _)); [done|].
    by rewrite length_add_frequency_bonus.
Qed.

End FrequencyBonus.

Lemma frequency_bonus_bound_witness :
  let df := [ mkScored a_chip 7 "x"; mkScored b_chip 7 "x";
              mkScored c_flood 5 "y"; mkScored e_chip 7 "x";
              mkScored f_vote 3 "z" ] in
  df !! 1%nat = Some (mkScored b_chip 7 "x") ∧
  add_frequency_bonus df !! 1%nat = Some (mkScored b_chip 9 "x").
Proof.
  intros df. split; [reflexivity|].
  destruct (frequency_bonus_bound df 1 (mkScored b_chip 7 "x") eq_refl)
    as (b & _ & Hrow & Hb & _).
  rewrite Hrow. vm_compute in Hb. by rewrite Hb.
Defined.

(** ** [drop_duplicates] *)

Section Dedup.

Context {A K : Type} `{EqDecision K} (key : A → K).

Implicit Types (df : list A) (seen : list K).

Lemma drop_duplicates_from_sublist seen df :
  drop_duplicates_from key seen df `sublist_of` df.
Proof.
  revert seen. induction df as [|x df IH]; intros seen; cbn; [done|].
  destruct (decide _); [apply sublist_cons|apply sublist_skip]; apply IH.
Qed.

Lemma elem_of_drop_duplicates_from seen df x :
  x ∈ drop_duplicates_from key seen df → x ∈ df ∧ key x ∉ seen.
Proof.
  revert seen. induction df as [|y df IH]; intros seen; cbn.
  - by intros ?%elem_of_nil.
  - destruct (decide (key y ∈ seen)) as [Hy|Hy].
    + intros [? ?]%IH. split; [by right|done].
    + intros [->|Hx]%elem_of_cons; [split; [left|done]|].
      apply IH in Hx as [? Hn]. split; [by right|].
      intros ?. apply Hn. by right.
Qed.

Lemma NoDup_drop_duplicates_from seen df :
  NoDup (key <$> drop_duplicates_from key seen df).
Proof.
  revert seen. induction df as [|y df IH]; intros seen; cbn.
  - constructor.
  - destruct (decide (key y ∈ seen)); [apply IH|].
    rewrite fmap_cons. constructor; [|apply IH].
    intros (z & Hz & Hin)%list_elem_of_fmap.
    apply elem_of_drop_duplicates_from in Hin as [_ Hn].
    apply Hn. rewrite Hz. left.
Qed.

(** The first row with a given key survives. *)
Lemma drop_duplicates_from_first seen l1 x l2 :
  key x ∉ seen → key x ∉ key <$> l1 →
  x ∈ drop_duplicates_from key seen (l1 ++ x :: l2).
Proof.
  revert seen. induction l1 as [|y l1 IH]; intros seen Hs Hl; cbn.
  - destruct (decide (key x ∈ seen)); [done|left].
  - rewrite fmap_cons in Hl. apply not_elem_of_cons in Hl as [Hne Hl].
    destruct (decide (key y ∈ seen)); [by apply IH|].
    right. apply IH; [|done]. by apply not_elem_of_cons.
Qed.

(** Every key that occurs is represented by its first row. *)
Lemma drop_duplicates_from_key seen df x :
  x ∈ df → key x ∉ seen →
  ∃ y, y ∈ drop_duplicates_from key seen df ∧ key y = key x.
Proof.
  revert seen. induction df as [|z df IH]; intros seen Hx Hs; cbn.
  - by apply elem_of_nil in Hx.
  - destruct (decide (key z ∈ seen)) as [Hz|Hz].
    + apply elem_of_cons in Hx as [->|Hx]; [done|]. by apply IH.
    + destruct (decide (key z = key x)) as [Heq|Hne].
      * exists z. split; [left|done].
      * apply elem_of_cons in Hx as [->|Hx]; [done|].
        destruct (IH (key z :: seen) Hx) as (y & Hy & Hk).
        { apply not_elem_of_cons. split; [congruence|done]. }
        exists y. split; [by right|done].
Qed.

Lemma drop_duplicates_sublist df : drop_duplicates key df `sublist_of` df.
Proof. apply drop_duplicates_from_sublist. Qed.

Lemma NoDup_drop_duplicates df : NoDup (key <$> drop_duplicates key df).
Proof. apply NoDup_drop_duplicates_from. Qed.

Lemma elem_of_drop_duplicates df x : x ∈ drop_duplicates key df → x ∈ df.
Proof. by intros [? _]%elem_of_drop_duplicates_from. Qed.


(** How often a key occurs in a frame whose keys are pairwise distinct. *)
Lemma NoDup_key_occurs_once df x :
  NoDup (key <$> df) → x ∈ df →
  length (filter (λ y, key y = key x) df) = 1%nat.
Proof.
  induction df as [|y df IH]; intros Hnd Hx; [by apply elem_of_nil in Hx|].
  rewrite fmap_cons in Hnd. apply NoDup_cons in Hnd as [Hy Hnd].
  rewrite filter_cons. destruct (decide (key y = key x)) as [Heq|Hne].
  - cbn. f_equal. apply length_zero_iff_nil.
    clear IH Hx Hnd. induction df as [|z df IH]; [done|].
    rewrite fmap_cons in Hy. apply not_elem_of_cons in Hy as [Hzy Hy].
    rewrite filter_cons, decide_False by congruence. by apply IH.
  - apply elem_of_cons in Hx as [->|Hx]; [done|]. by apply IH.
Qed.

End Dedup.

(** ** Scoring step and the exits of [main] *)

Section Scoring.

Variable scoring_service : list string → ScoringOutcome.
Variable local_date_of : string → option Z.
Variable str_contains : string → string → bool.
Variable sort_values : list Scored → list Scored.

Local Abbreviation classify := (ai_rank_and_classify_articles scoring_service).
Local Abbreviation run_main :=
  (main scoring_service local_date_of str_contains sort_values).
Local Abbreviation batch_of today tbl results :=
  (today_new_articles local_date_of today
     (DatabaseManager.get_existing_urls tbl)
     (concat (filter (λ df : list Article, df ≠ []) results))).

(** The scoring step adds columns and leaves the rows as they are. *)
Lemma art_classify df : art <$> classify df = df.
Proof.
  destruct df as [|a df]; [done|].
  unfold ai_rank_and_classify_articles.
  destruct (scoring_service _); rewrite <- list_fmap_compose;
    apply list_fmap_id.
Qed.

Lemma classify_failure df :
  (scoring_service (title <$> drop_duplicates title df) = Raises ∨
   scoring_service (title <$> drop_duplicates title df) = Unparseable) →
  classify df = (λ a, mkScored a 0 UNKNOWN) <$> df.
Proof.
  intros H. destruct df as [|a df]; [done|].
  unfold ai_rank_and_classify_articles. by destruct H as [-> | ->].
Qed.

Lemma scoring_failed_all_unknown l :
  (∀ r, r ∈ l → category r = UNKNOWN) → scoring_failed l = true.
Proof.
  intros H. unfold scoring_failed. apply forallb_forall. intros r Hr.
  apply bool_decide_eq_true, H. by apply list_elem_of_In.
Qed.

(** [main] as a cascade of its exit tests. *)
Lemma main_cascade cfg today t_write t_clean tbl results :
  let raw := concat (filter (λ df : list Article, df ≠ []) results) in
  let fresh := new_articles (DatabaseManager.get_existing_urls tbl) raw in
  let batch := batch_of today tbl results in
  let scored := add_frequency_bonus (classify batch) in
  let tbl' := DatabaseManager.write_new_articles t_write tbl (art <$> scored) in
  run_main cfg today t_write t_clean tbl results =
    if decide (filter (λ df : list Article, df ≠ []) results = [])
    then mkRun NoData tbl tbl
    else if decide (fresh = [])
    then mkRun NoNewArticles tbl (retention cfg t_clean tbl)
    else if decide (date_filter local_date_of today fresh = [])
    then mkRun NoTodayArticles tbl tbl
    else if scoring_failed (classify batch)
    then mkRun ScoringFailed tbl tbl
    else if category_column_missing str_contains sort_values
              (FORCE_KEEP_RULES cfg) (CATEGORY_QUOTAS cfg)
              (TOTAL_LIMIT cfg) scored
    then mkRun CategoryKeyError tbl tbl
    else mkRun (Done (final_list str_contains sort_values
                        (FORCE_KEEP_RULES cfg) (CATEGORY_QUOTAS cfg)
                        (TOTAL_LIMIT cfg) scored))
               tbl' (retention cfg t_clean tbl').
Proof.
  intros raw fresh batch scored tbl'. unfold main.
  fold raw. fold fresh.
  destruct (filter (λ df : list Article, df ≠ []) results)
    as [|df0 dfs] eqn:Hres.
  { by rewrite decide_True. }
  rewrite decide_False by done.
  destruct fresh as [|a0 fresh0] eqn:Hfresh.
  { by rewrite decide_True. }
  rewrite decide_False by done.
  destruct (date_filter local_date_of today (a0 :: fresh0))
    as [|a1 dated] eqn:Hdate.
  { by rewrite decide_True. }
  rewrite decide_False by done.
  subst tbl' scored batch. unfold today_new_articles.
  fold raw. fold fresh. rewrite Hfresh, Hdate. done.
Qed.

(** A non-empty batch means none of the three earlier exits was taken. *)
Lemma batch_nonempty today tbl results :
  batch_of today tbl results ≠ [] →
  filter (λ df : list Article, df ≠ []) results ≠ [] ∧
  new_articles (DatabaseManager.get_existing_urls tbl)
    (concat (filter (λ df : list Article, df ≠ []) results)) ≠ [] ∧
  date_filter local_date_of today
    (new_articles (DatabaseManager.get_existing_urls tbl)
       (concat (filter (λ df : list Article, df ≠ []) results))) ≠ [].
Proof.
  unfold today_new_articles. intros Hb. repeat split; intros Heq; apply Hb.
  - by rewrite Heq.
  - by rewrite Heq.
  - by rewrite Heq.
Qed.

(** The titles of the batch [main] scores are pairwise distinct. *)
Lemma batch_titles_NoDup today tbl results :
  NoDup (title <$> batch_of today tbl results).
Proof. apply NoDup_drop_duplicates. Qed.

Lemma scored_titles_NoDup today tbl results :
  NoDup ((λ r, title (art r)) <$>
           add_frequency_bonus (classify (batch_of today tbl results))).
Proof.
  rewrite (list_fmap_compose art title), art_add_frequency_bonus, art_classify.
  apply batch_titles_NoDup.
Qed.

(** When the titles are pairwise distinct every group has size 1 and the
    bonus step changes nothing. *)
Lemma add_frequency_bonus_distinct_titles (df : list Scored) :
  NoDup ((λ r, title (art r)) <$> df) → add_frequency_bonus df = df.
Proof.
  intros Hnd. apply list_eq. intros i.
  destruct (df !! i) as [r|] eqn:Hi.
  - destruct (add_frequency_bonus_lookup df i r Hi) as [_ ->].
    assert (Hr : r ∈ df) by (apply list_elem_of_lookup; eauto).
    rewrite (NoDup_key_occurs_once (λ r, title (art r)) df r Hnd Hr).
    destruct r. cbn. f_equal. f_equal. lia.
  - apply lookup_ge_None in Hi. apply lookup_ge_None.
    by rewrite length_add_frequency_bonus.
Qed.

(** X11. In [main] the title dedup of line 247 runs before the scoring
    step,
    so the frame that reaches lines 258-260 has no repeated title and
    every bonus is 0. *)
Lemma frequency_bonus_dead_in_main today tbl results :
  let batch := batch_of today tbl results in
  add_frequency_bonus (classify batch) = classify batch ∧
  ∀ b, b ∈ frequency_bonus (classify batch) → b = 0.
Proof.
  intros batch.
  assert (Hnd : NoDup ((λ r, title (art r)) <$> classify batch)).
  { rewrite (list_fmap_compose art title), art_classify.
    apply batch_titles_NoDup. }
  split; [by apply add_frequency_bonus_distinct_titles|].
  intros b [i Hi]%list_elem_of_lookup.
  assert (Hlen : (i < length (classify batch))%nat).
  { apply lookup_lt_Some in Hi.
    unfold frequency_bonus, title_counts in Hi.
    by rewrite !length_fmap in Hi. }
  apply lookup_lt_is_Some in Hlen as [r Hr].
  destruct (add_frequency_bonus_lookup _ i r Hr) as [Hb' _].
  rewrite Hi in Hb'. injection Hb' as ->.
  assert (Hin : r ∈ classify batch) by (apply list_elem_of_lookup; eauto).
  rewrite (NoDup_key_occurs_once (λ r, title (art r)) _ r Hnd Hin).
  lia.
Qed.

(** C1 (amended). When the scoring call raises or its answer cannot be
    parsed, every row leaves the scoring step with score 0 and the
    unknown category and the rows themselves are unchanged; [main] then
    finds every category unknown and returns at the scoring-failed exit
    before force-keep, quota selection, export and archive write: no run
    with a failed scoring call ends with a final list, and the archive is
    not written. *)
Theorem scoring_failure_degrades_then_exits
    cfg today t_write t_clean tbl results :
  let batch :=
    today_new_articles local_date_of today
      (DatabaseManager.get_existing_urls tbl)
      (concat (filter (λ df : list Article, df ≠ []) results)) in
  let classified := ai_rank_and_classify_articles scoring_service batch in
  let run :=
    main scoring_service local_date_of str_contains sort_values
         cfg today t_write t_clean tbl results in
  (scoring_service (title <$> drop_duplicates title batch) = Raises ∨
   scoring_service (title <$> drop_duplicates title batch) = Unparseable) →
  (∀ r, r ∈ classified → importance_score r = 0 ∧ category r = UNKNOWN) ∧
  art <$> classified = batch ∧
  (batch ≠ [] → exit run = ScoringFailed) ∧
  (∀ final_list_df, exit run ≠ Done final_list_df) ∧
  written run = tbl.
Proof.
  intros batch classified run Hfail. subst classified.
  assert (Hall : ∀ r, r ∈ classify batch →
                      importance_score r = 0 ∧ category r = UNKNOWN).
  { rewrite (classify_failure _ Hfail).
    by intros r (a & -> & _)%list_elem_of_fmap. }
  assert (Hguard : scoring_failed (classify batch) = true).
  { apply scoring_failed_all_unknown. intros r Hr. by apply Hall. }
  split; [exact Hall|]. split; [apply art_classify|].
  unfold run. rewrite main_cascade. fold batch. rewrite Hguard.
  split; [|split].
  - intros (H1 & H2 & H3)%batch_nonempty.
    by rewrite !decide_False by done.
  - intros final_list_df. by repeat case_decide.
  - by repeat case_decide.
Qed.

End Scoring.

Lemma scoring_failure_degrades_then_exits_witness :
  let run := main service_down sample_dates contains_literal sort_desc
               sample_config 1 1000 1001 ∅ [[a_chip; c_flood; d_old]] in
  service_down (title <$> drop_duplicates title [a_chip; c_flood]) = Raises ∧
  exit run = ScoringFailed ∧ written run = ∅.
Proof.
  intros run. split; [reflexivity|].
  destruct (scoring_failure_degrades_then_exits
              service_down sample_dates contains_literal sort_desc
              sample_config 1 1000 1001 ∅ [[a_chip; c_flood; d_old]]
              (or_introl eq_refl)) as (_ & _ & Hexit & _ & Hw).
  split; [|exact Hw]. apply Hexit. by vm_compute.
Defined.

(** C1 (as stated) fails: with the service down, the batch is degraded
    to score 0 and the unknown category, and the run does not go on to a
    final list. *)
Lemma scoring_failure_aborts_run :
  let run := main service_down sample_dates contains_literal sort_desc
               sample_config 1 1000 1001 ∅ [[a_chip; c_flood; d_old]] in
  ¬ ((∀ r, r ∈ ai_rank_and_classify_articles service_down [a_chip; c_flood] →
           importance_score r = 0 ∧ category r = UNKNOWN) ∧
     ∃ final_list_df, exit run = Done final_list_df).
Proof.
  intros run [_ [final_list_df Hdone]]. vm_compute in Hdone. discriminate Hdone.
Qed.

(** C3 (evaluation). Five same-day new rows, three distinct titles, one
    title reported by three sources: the population after the date filter
    holds that title three times, so a bonus of [min(3 - 1, 2) = 2] is due;
    [main] counts titles on the frame after the title dedup, where every
    title occurs once, and the surviving row keeps the service's score 7. *)
Lemma frequency_bonus_lost_after_dedup :
  let raw := [a_chip; b_chip; c_flood; d_old; e_chip; f_vote] in
  let population := date_filter sample_dates 1 (new_articles ∅ raw) in
  let batch := today_new_articles sample_dates 1 ∅ raw in
  let classified :=
    ai_rank_and_classify_articles (service_answers sample_items) batch in
  population = [a_chip; b_chip; c_flood; e_chip; f_vote] ∧
  length (filter (λ a, title a = title a_chip) population) = 3%nat ∧
  batch = [a_chip; c_flood; f_vote] ∧
  frequency_bonus classified = [0; 0; 0] ∧
  add_frequency_bonus classified
    = [ mkScored a_chip 7 "科技与商业"; mkScored c_flood 5 "社会与文化";
        mkScored f_vote 3 "国内政策" ].
Proof. vm_compute. repeat split; reflexivity. Qed.

(** ** Archive writes *)

Section Archive.

Import DatabaseManager.

Implicit Types (tbl : Table) (df : list Article) (now : Z).

Lemma insert_rows_collision now tbl df a :
  a ∈ df → is_Some (tbl !! url a) → insert_rows now tbl df = None.
Proof.
  revert tbl. induction df as [|r df IH]; intros tbl Ha Hs.
  - by apply elem_of_nil in Ha.
  - cbn. apply elem_of_cons in Ha as [->|Ha].
    + by destruct Hs as [e ->].
    + destruct (tbl !! url r); [done|]. apply IH; [done|].
      destruct (decide (url r = url a)) as [->|Hne].
      * rewrite lookup_insert_eq. eauto.
      * by rewrite lookup_insert_ne.
Qed.

(** A url that occurs twice in the batch collides with itself. *)
Lemma insert_rows_repeated now tbl df :
  ¬ NoDup (url <$> df) → insert_rows now tbl df = None.
Proof.
  revert tbl. induction df as [|r df IH]; intros tbl Hnd.
  - destruct Hnd. constructor.
  - cbn. destruct (tbl !! url r); [done|].
    destruct (decide (url r ∈ url <$> df)) as [Hin|Hout].
    + apply list_elem_of_fmap in Hin as (a & Heq & Ha).
      apply (insert_rows_collision _ _ _ a); [done|].
      rewrite <- Heq, lookup_insert_eq. eauto.
    + apply IH. intros Hnd'. apply Hnd. rewrite fmap_cons. by constructor.
Qed.

Lemma insert_rows_Some now tbl df tbl' :
  insert_rows now tbl df = Some tbl' →
  dom tbl' = dom tbl ∪ list_to_set (url <$> df).
Proof.
  revert tbl. induction df as [|r df IH]; intros tbl; cbn.
  - intros [= <-]. set_solver.
  - destruct (tbl !! url r); [done|]. intros ->%IH.
    rewrite dom_insert_L. set_solver.
Qed.

Lemma insert_rows_fresh now tbl df :
  NoDup (url <$> df) → (∀ a, a ∈ df → tbl !! url a = None) →
  is_Some (insert_rows now tbl df).
Proof.
  revert tbl. induction df as [|r df IH]; intros tbl Hnd Hnew; cbn; [eauto|].
  rewrite (Hnew r) by left.
  rewrite fmap_cons in Hnd. apply NoDup_cons in Hnd as [Hr Hnd].
  apply IH; [done|]. intros a Ha.
  rewrite lookup_insert_ne; [apply Hnew; by right|].
  intros Heq. apply Hr. rewrite Heq. apply list_elem_of_fmap. eauto.
Qed.

(** What a write can add: nothing but urls of the batch. *)
Lemma write_new_articles_dom_subseteq now tbl df :
  dom (write_new_articles now tbl df) ⊆ dom tbl ∪ list_to_set (url <$> df).
Proof.
  unfold write_new_articles, to_sql. destruct df as [|r df]; [set_solver|].
  destruct (insert_rows now tbl (r :: df)) as [tbl'|] eqn:Hins.
  - apply insert_rows_Some in Hins. set_solver.
  - set_solver.
Qed.

(** A batch of fresh, pairwise distinct urls is stored in full. *)
Lemma write_new_articles_fresh now tbl df :
  NoDup (url <$> df) → (∀ a, a ∈ df → url a ∉ dom tbl) →
  dom (write_new_articles now tbl df) = dom tbl ∪ list_to_set (url <$> df).
Proof.
  intros Hnd Hnew. unfold write_new_articles, to_sql.
  destruct df as [|r df]; [set_solver|].
  destruct (insert_rows_fresh now tbl (r :: df) Hnd) as [tbl' Hins].
  { intros a Ha. by apply not_elem_of_dom, Hnew. }
  rewrite Hins. by apply insert_rows_Some in Hins.
Qed.

(** C6 (amended). When the batch holds a url that is already a key of
    the table, the append fails as a whole: the table after
    [write_new_articles] is the table from before, so no row of the
    batch is stored; the call itself returns normally. *)
Theorem write_collision_rolls_back now tbl df a :
  a ∈ df → url a ∈ dom tbl → write_new_articles now tbl df = tbl.
Proof.
  intros Ha Hin. unfold write_new_articles, to_sql.
  destruct df as [|r df]; [done|].
  rewrite (insert_rows_collision now tbl (r :: df) a Ha); [done|].
  by apply elem_of_dom.
Qed.

(** The same happens when one url occurs twice in the batch itself, as
    for rows split off one feed entry. *)
Lemma write_repeated_url_rolls_back now tbl df :
  ¬ NoDup (url <$> df) → write_new_articles now tbl df = tbl.
Proof.
  intros Hnd. unfold write_new_articles, to_sql.
  destruct df as [|r df]; [done|].
  by rewrite (insert_rows_repeated now tbl (r :: df) Hnd).
Qed.

Lemma clean_old_articles_dom now days tbl :
  dom (clean_old_articles now days tbl) ⊆ dom tbl.
Proof.
  unfold clean_old_articles. case_decide; [|done]. apply dom_filter_subseteq.
Qed.

End Archive.

Lemma write_collision_rolls_back_witness :
  a_chip ∈ [a_chip; c_flood] ∧ url a_chip ∈ dom sample_archive ∧
  DatabaseManager.write_new_articles 1000 sample_archive [a_chip; c_flood]
    = sample_archive.
Proof.
  assert (H1 : a_chip ∈ [a_chip; c_flood]) by left.
  assert (H2 : url a_chip ∈ dom sample_archive)
    by (apply (bool_decide_unpack _); by vm_compute).
  split; [exact H1|]. split; [exact H2|].
  exact (write_collision_rolls_back 1000 sample_archive [a_chip; c_flood]
           a_chip H1 H2).
Defined.

(** C6 (as stated) fails: the batch holds the archived url of [a_chip] and
    the new url of [c_flood]; after the write the new url is not stored. *)
Lemma write_collision_loses_new_rows :
  url a_chip ∈ dom sample_archive ∧
  (url c_flood ∉ dom sample_archive) ∧
  ¬ (url c_flood ∈
       dom (DatabaseManager.write_new_articles 1000 sample_archive
              [a_chip; c_flood])).
Proof.
  split; [apply (bool_decide_unpack _); by vm_compute|].
  split; (apply (bool_decide_unpack _); by vm_compute).
Qed.

(** ** What a run archives *)

Section ArchivedBatch.

Variable scoring_service : list string → ScoringOutcome.
Variable local_date_of : string → option Z.
Variable str_contains : string → string → bool.
Variable sort_values : list Scored → list Scored.

Local Abbreviation run_main :=
  (main scoring_service local_date_of str_contains sort_values).

Lemma retention_dom cfg now (tbl : DatabaseManager.Table) :
  dom (retention cfg now tbl) ⊆ dom tbl.
Proof.
  unfold retention. destruct (retention_enabled cfg); [|done].
  apply clean_old_articles_dom.
Qed.

Lemma today_new_articles_fresh today (existing : gset string) raw a :
  a ∈ today_new_articles local_date_of today existing raw →
  a ∈ raw ∧ (url a ∉ existing) ∧ published_today local_date_of today a = true.
Proof.
  unfold today_new_articles, date_filter.
  intros [Hp [? ?]%elem_of_new_articles]%elem_of_drop_duplicates%list_elem_of_filter.
  done.
Qed.

(** C9 (amended). A run that reaches the archive step hands
    [write_new_articles] exactly the same-day, title-deduplicated batch
    of new rows, and when the urls of that batch are pairwise distinct
    the table gains exactly those urls.  A run that ends before that
    step, at an early return or with the [KeyError] of line 293, writes
    nothing and adds no url.  In every run the table gains no url
    outside that batch and the retention step only removes rows, so the
    url of a new row that the date filter or the title dedup dropped is
    not archived and the row is new again for any later run that
    fetches it. *)
Theorem archive_holds_today_new cfg today t_write t_clean tbl results :
  let raw := concat (filter (λ df : list Article, df ≠ []) results) in
  let existing := DatabaseManager.get_existing_urls tbl in
  let batch := today_new_articles local_date_of today existing raw in
  let run :=
    main scoring_service local_date_of str_contains sort_values
         cfg today t_write t_clean tbl results in
  dom (written run) ⊆ dom tbl ∪ list_to_set (url <$> batch) ∧
  dom (closed run) ⊆ dom (written run) ∧
  (∀ final_list_df, exit run = Done final_list_df →
     written run = DatabaseManager.write_new_articles t_write tbl batch ∧
     (NoDup (url <$> batch) →
        dom (written run) = dom tbl ∪ list_to_set (url <$> batch))) ∧
  (∀ a, a ∈ new_articles existing raw → url a ∉ url <$> batch →
     (url a ∉ dom (closed run)) ∧
     ∀ raw', a ∈ raw' →
       a ∈ new_articles (DatabaseManager.get_existing_urls (closed run)) raw') ∧
  ((∀ final_list_df, exit run ≠ Done final_list_df) →
   written run = tbl ∧ dom (closed run) ⊆ dom tbl).
Proof.
  intros raw existing batch run.
  assert (Hbatch : art <$> add_frequency_bonus
            (ai_rank_and_classify_articles scoring_service batch) = batch)
    by (by rewrite art_add_frequency_bonus, art_classify).
  assert (Hrun : run = run_main cfg today t_write t_clean tbl results) by done.
  rewrite main_cascade in Hrun. fold raw existing batch in Hrun.
  rewrite Hbatch in Hrun.
  assert (Hw : dom (written run) ⊆ dom tbl ∪ list_to_set (url <$> batch)).
  { rewrite Hrun. repeat case_decide; try (cbn; set_solver).
    destruct (scoring_failed _); cbn; [set_solver|].
    destruct (category_column_missing _ _ _ _ _ _); cbn; [set_solver|].
    apply write_new_articles_dom_subseteq. }
  assert (Hc : dom (closed run) ⊆ dom (written run)).
  { rewrite Hrun. repeat case_decide; try done.
    - apply retention_dom.
    - destruct (scoring_failed _); cbn; [done|].
      destruct (category_column_missing _ _ _ _ _ _); cbn; [done|].
      apply retention_dom. }
  split; [exact Hw|]. split; [exact Hc|]. split; [|split].
  - intros final_list_df. rewrite Hrun.
    repeat case_decide; try done.
    destruct (scoring_failed _); [done|].
    destruct (category_column_missing _ _ _ _ _ _); [done|]. cbn. intros _.
    split; [done|]. intros Hnd.
    apply write_new_articles_fresh; [done|].
    intros a Ha. by apply today_new_articles_fresh in Ha as (_ & ? & _).
  - intros a [Ha Hnew]%elem_of_new_articles Hout.
    assert (Hnot : url a ∉ dom (closed run)).
    { intros Hin. apply Hc, Hw in Hin.
      apply elem_of_union in Hin as [Hin|Hin]; [done|].
      by apply elem_of_list_to_set in Hin. }
    split; [exact Hnot|]. intros raw' Hraw'.
    by apply elem_of_new_articles.
  - intros Hearly.
    assert (Hwt : written run = tbl).
    { revert Hearly. rewrite Hrun. repeat case_decide; try done.
      destruct (scoring_failed _); [done|].
      destruct (category_column_missing _ _ _ _ _ _); [done|].
      cbn. intros Hearly. by destruct (Hearly _ eq_refl). }
    split; [exact Hwt|]. by rewrite <- Hwt.
Qed.

End ArchivedBatch.

Lemma archive_holds_today_new_witness :
  let results := [[a_chip; b_chip]; []; [c_flood; d_old; e_chip; f_vote]] in
  let batch := today_new_articles sample_dates 1
                 (DatabaseManager.get_existing_urls ∅) (concat results) in
  let run := sample_main sample_config 1 1000 1001 ∅ results in
  (∃ final_list_df, exit run = Done final_list_df) ∧
  NoDup (url <$> batch) ∧
  dom (written run) = dom (∅ : DatabaseManager.Table)
                      ∪ list_to_set (url <$> batch) ∧
  (url b_chip ∉ dom (closed run)).
Proof.
  intros results batch run.
  destruct (archive_holds_today_new
              (service_answers sample_items) sample_dates contains_literal
              sort_desc sample_config 1 1000 1001 ∅ results)
    as (_ & _ & Hdone & Hdropped & _).
  assert (Hexit : ∃ final_list_df, exit run = Done final_list_df)
    by (eexists; vm_compute; reflexivity).
  assert (Hnd : NoDup (url <$> batch))
    by (apply (bool_decide_unpack _); by vm_compute).
  split; [exact Hexit|]. split; [exact Hnd|]. split.
  - destruct Hexit as [final_list_df Hexit].
    exact (proj2 (Hdone final_list_df Hexit) Hnd).
  - refine (proj1 (Hdropped b_chip _ _)).
    + apply (bool_decide_unpack _); by vm_compute.
    + apply (bool_decide_unpack _); by vm_compute.
Defined.

(** C9 (as stated) fails: two same-day new rows and a service that is
    down; the batch of line 313 is not empty, the run returns at the
    scoring-failed exit and the archive stays empty. *)
Lemma archive_empty_when_scoring_fails :
  let raw := [a_chip; c_flood; d_old] in
  let batch := today_new_articles sample_dates 1
                 (DatabaseManager.get_existing_urls ∅) raw in
  let run := main service_down sample_dates contains_literal sort_desc
               sample_config 1 1000 1001 ∅ [raw] in
  batch = [a_chip; c_flood] ∧
  exit run = ScoringFailed ∧
  ¬ (dom (closed run) ∖ dom (∅ : DatabaseManager.Table)
       = list_to_set (url <$> batch)).
Proof.
  intros raw batch run.
  split; [by vm_compute|]. split; [by vm_compute|].
  intros Heq.
  assert (Hc : closed run = ∅) by (by vm_compute).
  assert (Hin : url a_chip ∈ dom (closed run) ∖ dom (∅ : DatabaseManager.Table)).
  { rewrite Heq. apply elem_of_list_to_set.
    apply (bool_decide_unpack _); by vm_compute. }
  rewrite Hc, dom_empty_L in Hin. set_solver.
Qed.

(** ** Force-keep precedence *)

Section Precedence.

Variable scoring_service : list string → ScoringOutcome.
Variable local_date_of : string → option Z.
Variable str_contains : string → string → bool.
Variable sort_values : list Scored → list Scored.

Local Abbreviation mask := (force_keep_mask str_contains).
Local Abbreviation final := (final_list str_contains sort_values).
Local Abbreviation run_main :=
  (main scoring_service local_date_of str_contains sort_values).

Lemma final_list_unfold rules Q T df :
  final rules Q T df =
    drop_duplicates row_key
      (filter (λ r, mask rules r = true) df ++
       quota_select Q T
         (sort_values (filter (λ r, ¬ mask rules r = true) df))).
Proof.
  unfold final_list. by rewrite apply_force_keep_rules_filters.
Qed.

(** A forced row is represented in the final list by a row with its url
    and title. *)
Lemma forced_key_in_final rules Q T df r :
  r ∈ df → mask rules r = true →
  ∃ r', r' ∈ final rules Q T df ∧ row_key r' = row_key r.
Proof.
  intros Hr Hm. rewrite final_list_unfold.
  apply drop_duplicates_from_key; [|apply not_elem_of_nil].
  apply elem_of_app. left. by apply list_elem_of_filter.
Qed.

(** When no two rows share url and title, a forced row itself is in the
    final list. *)
Lemma forced_row_in_final rules Q T df r :
  NoDup (row_key <$> df) → r ∈ df → mask rules r = true →
  r ∈ final rules Q T df.
Proof.
  intros Hnd Hr Hm. rewrite final_list_unfold.
  set (forced := filter (λ r, mask rules r = true) df).
  assert (Hf : r ∈ forced) by (by apply list_elem_of_filter).
  assert (Hndf : NoDup (row_key <$> forced)).
  { eapply sublist_NoDup; [exact Hnd|].
    apply fmap_sublist, sublist_filter. }
  apply list_elem_of_split in Hf as (l1 & l2 & Hsplit).
  rewrite Hsplit in Hndf |- *. rewrite <- app_assoc, <- app_comm_cons.
  apply drop_duplicates_from_first; [apply not_elem_of_nil|].
  rewrite fmap_app, fmap_cons in Hndf.
  apply NoDup_app in Hndf as (_ & Hdisj & _).
  intros Hin. apply (Hdisj _ Hin). left.
Qed.

(** C5. A row that matches a force-keep rule is in the final list,
    whatever its score, the quota table and the total limit: for any
    scored frame it is represented there by a row with its url and
    title, it is there itself when no two rows of the frame share url
    and title, and in [main], where the titles of the scored frame are
    pairwise distinct, every matching row of the scored frame is in the
    final list of every run that produces one. *)
Theorem force_keep_precedence cfg today t_write t_clean tbl results :
  let batch :=
    today_new_articles local_date_of today
      (DatabaseManager.get_existing_urls tbl)
      (concat (filter (λ df : list Article, df ≠ []) results)) in
  let scored :=
    add_frequency_bonus
      (ai_rank_and_classify_articles scoring_service batch) in
  let run :=
    main scoring_service local_date_of str_contains sort_values
         cfg today t_write t_clean tbl results in
  (∀ rules Q T df r,
     r ∈ df → force_keep_mask str_contains rules r = true →
     ∃ r', r' ∈ final_list str_contains sort_values rules Q T df ∧
           url (art r') = url (art r) ∧ title (art r') = title (art r)) ∧
  (∀ rules Q T df r,
     NoDup (row_key <$> df) →
     r ∈ df → force_keep_mask str_contains rules r = true →
     r ∈ final_list str_contains sort_values rules Q T df) ∧
  (∀ final_list_df,
     exit run = Done final_list_df →
     ∀ r, r ∈ scored →
          force_keep_mask str_contains (FORCE_KEEP_RULES cfg) r = true →
          r ∈ final_list_df).
Proof.
  intros batch scored run. subst run. split; [|split].
  - intros rules Q T df r Hr Hm.
    destruct (forced_key_in_final rules Q T df r Hr Hm) as (r' & Hin & Hk).
    exists r'. split; [done|]. by injection Hk.
  - intros rules Q T df r. apply forced_row_in_final.
  - intros final_list_df. rewrite main_cascade. fold batch. fold scored.
    repeat case_decide; try done.
    destruct (scoring_failed _); [done|].
    destruct (category_column_missing _ _ _ _ _ _); [done|].
    cbn. intros [= <-] r Hr Hm.
    apply forced_row_in_final; [|done|done].
    apply (NoDup_fmap_1 snd). rewrite <- list_fmap_compose.
    apply scored_titles_NoDup.
Qed.

End Precedence.

Lemma force_keep_precedence_witness :
  let results := [[a_chip; b_chip]; []; [c_flood; d_old; e_chip; f_vote]] in
  let run := sample_main sample_config 1 1000 1001 ∅ results in
  let flood := mkScored c_flood 5 "社会与文化" in
  let chip := mkScored a_chip 7 "科技与商业" in
  (∃ final_list_df,
     exit run = Done final_list_df ∧
     force_keep_mask contains_literal sample_rules flood = true ∧
     flood ∈ final_list_df) ∧
  (NoDup (row_key <$> [chip; flood]) ∧
   flood ∈ final_list contains_literal sort_desc sample_rules
             sample_quotas 0 [chip; flood]).
Proof.
  intros results run flood chip.
  destruct (force_keep_precedence
              (service_answers sample_items) sample_dates contains_literal
              sort_desc sample_config 1 1000 1001 ∅ results)
    as (_ & Hrow & Hmain).
  split.
  - eexists. split; [by vm_compute|]. split; [by vm_compute|].
    refine (Hmain _ _ flood _ _).
    + by vm_compute.
    + apply (bool_decide_unpack _); by vm_compute.
    + by vm_compute.
  - assert (Hnd : NoDup (row_key <$> [chip; flood]))
      by (apply (bool_decide_unpack _); by vm_compute).
    split; [exact Hnd|].
    apply (Hrow sample_rules sample_quotas 0 [chip; flood] flood Hnd).
    + right; left.
    + by vm_compute.
Defined.

(** ** Quota selection *)

Section Quota.

Implicit Types (Q counts : gmap string Z) (T : Z) (rows sel : list Scored).

(** How many rows of [l] have category [c]. *)
Local Abbreviation count c l :=
  (Z.of_nat (length (filter (λ r : Scored, category r = c) l))).

Lemma count_snoc c sel x :
  count c (sel ++ [x]) = count c sel + (if decide (category x = c) then 1 else 0).
Proof.
  rewrite filter_app, length_app, filter_cons, filter_nil.
  destruct (decide (category x = c)); cbn; lia.
Qed.

Lemma length_filter_sublist (P : Scored → Prop) `{∀ x, Decision (P x)} l1 l2 :
  l1 `sublist_of` l2 → (length (filter P l1) ≤ length (filter P l2))%nat.
Proof.
  induction 1 as [|x l1 l2 _ IH|x l1 l2 _ IH]; [done| |];
    rewrite ?filter_cons; repeat case_decide; cbn; lia.
Qed.

(** The walk from any state of its accumulators whose counters count
    the rows selected so far. *)
Lemma quota_walk_inv Q T rows sel counts :
  (∀ c, is_Some (counts !! c) ↔ is_Some (Q !! c)) →
  (∀ c n, counts !! c = Some n → n = count c sel) →
  ∃ picked,
    quota_walk Q T rows sel counts = sel ++ picked ∧
    picked `sublist_of` rows ∧
    Z.of_nat (length (sel ++ picked)) ≤ Z.max T (Z.of_nat (length sel)) ∧
    (∀ c q, Q !! c = Some q →
       count c (sel ++ picked) ≤ Z.max q (count c sel)) ∧
    (∀ r, r ∈ rows → Q !! category r = None → r ∉ picked →
       T ≤ Z.of_nat (length (sel ++ picked))).
Proof.
  revert sel counts.
  induction rows as [|x rest IH]; intros sel counts Hkeys Hcnt.
  { exists []. rewrite app_nil_r. cbn. repeat split; try done; lia. }
  cbn [quota_walk].
  destruct (decide (T ≤ Z.of_nat (length sel))) as [Hfull|Hroom].
  { exists []. rewrite app_nil_r. repeat split; try lia.
    apply sublist_nil_l. }
  destruct (counts !! category x) as [n|] eqn:Hn.
  - destruct (proj1 (Hkeys (category x)) ltac:(eauto)) as [q Hq].
    rewrite Hq. pose proof (Hcnt _ _ Hn) as Hnval.
    destruct (decide (n < q)) as [Hlt|Hge].
    + destruct (IH (sel ++ [x]) (<[category x := n + 1]> counts))
        as (picked & Hout & Hsub & Hlen & Hcat & Hfree).
      { intros c. rewrite lookup_insert_is_Some, <- Hkeys.
        split; [intros [<-|[_ ?]]; eauto|]. intros ?.
        destruct (decide (category x = c)); eauto. }
      { intros c m. rewrite count_snoc.
        destruct (decide (category x = c)) as [<-|Hne].
        - rewrite lookup_insert_eq. intros [= <-]. lia.
        - rewrite lookup_insert_ne by done. intros ?%Hcnt. lia. }
      exists (x :: picked). rewrite Hout, <- app_assoc. cbn [app].
      rewrite <- app_assoc in Hlen, Hcat, Hfree. cbn [app] in Hlen, Hcat, Hfree.
      split; [done|]. split; [by apply sublist_skip|].
      split. { rewrite length_app in Hlen |- *. cbn in Hlen |- *.
               rewrite length_app in Hlen. cbn in Hlen. lia. }
      split.
      * intros c q' Hq'. specialize (Hcat c q' Hq').
        rewrite count_snoc in Hcat.
        destruct (decide (category x = c)) as [<-|Hne]; [|lia].
        rewrite Hq in Hq'. injection Hq' as <-. lia.
      * intros r Hr Hnone Hnot.
        apply elem_of_cons in Hr as [->|Hr]; [congruence|].
        apply (Hfree r); [done|done|]. intros ?. apply Hnot. by right.
    + destruct (IH sel counts Hkeys Hcnt)
        as (picked & Hout & Hsub & Hlen & Hcat & Hfree).
      exists picked. split; [done|]. split; [by apply sublist_cons|].
      split; [done|]. split; [done|].
      intros r Hr Hnone Hnot.
      apply elem_of_cons in Hr as [->|Hr]; [congruence|]. by apply (Hfree r).
  - assert (Hq : Q !! category x = None).
    { destruct (Q !! category x) eqn:HQ; [|done].
      destruct (proj2 (Hkeys (category x)) ltac:(eauto)) as [? ?]. congruence. }
    destruct (IH (sel ++ [x]) counts Hkeys)
      as (picked & Hout & Hsub & Hlen & Hcat & Hfree).
    { intros c m Hm. rewrite count_snoc.
      destruct (decide (category x = c)) as [<-|Hne]; [congruence|].
      apply Hcnt in Hm. lia. }
    exists (x :: picked). rewrite Hout, <- app_assoc. cbn [app].
    rewrite <- app_assoc in Hlen, Hcat, Hfree. cbn [app] in Hlen, Hcat, Hfree.
    split; [done|]. split; [by apply sublist_skip|].
    split. { rewrite length_app in Hlen |- *. cbn in Hlen |- *.
             rewrite length_app in Hlen. cbn in Hlen. lia. }
    split.
    * intros c q' Hq'. specialize (Hcat c q' Hq').
      rewrite count_snoc in Hcat.
      destruct (decide (category x = c)) as [<-|Hne]; [congruence|lia].
    * intros r Hr Hnone Hnot.
      apply elem_of_cons in Hr as [->|Hr]; [destruct Hnot; left|].
      apply (Hfree r); [done|done|]. intros ?. apply Hnot. by right.
Qed.

(** The walk as [main] starts it. *)
Lemma quota_select_inv Q T rows :
  let sel := quota_select Q T rows in
  sel `sublist_of` rows ∧
  Z.of_nat (length sel) ≤ Z.max T 0 ∧
  (∀ c q, Q !! c = Some q → count c sel ≤ Z.max q 0) ∧
  (∀ r, r ∈ rows → Q !! category r = None → r ∉ sel →
     T ≤ Z.of_nat (length sel)).
Proof.
  unfold quota_select.
  destruct (quota_walk_inv Q T rows [] ((λ _, 0) <$> Q))
    as (picked & -> & Hsub & Hlen & Hcat & Hfree).
  { intros c. by rewrite lookup_fmap, fmap_is_Some. }
  { intros c n. rewrite lookup_fmap. by intros (? & ? & ->)%fmap_Some. }
  cbn [app] in *. by cbn in Hlen, Hcat.
Qed.

Lemma sum_values_empty : sum_values ∅ = 0.
Proof. apply map_fold_empty. Qed.

Lemma sum_values_insert Q c q :
  Q !! c = None → sum_values (<[c := q]> Q) = q + sum_values Q.
Proof.
  intros Hc. unfold sum_values.
  rewrite map_fold_insert_L; [done| |done]. intros. lia.
Qed.

Lemma length_filter_split (P P1 P2 : Scored → Prop)
    `{∀ x, Decision (P x)} `{∀ x, Decision (P1 x)} `{∀ x, Decision (P2 x)}
    (l : list Scored) :
  (∀ x, P x ↔ P1 x ∨ P2 x) → (∀ x, ¬ (P1 x ∧ P2 x)) →
  (length (filter P l) = length (filter P1 l) + length (filter P2 l))%nat.
Proof.
  intros Hiff Hdisj. induction l as [|x l IH]; [done|].
  rewrite !filter_cons. pose proof (Hiff x). pose proof (Hdisj x).
  repeat case_decide; cbn; try lia; tauto.
Qed.

(** Rows of the counted categories: no more than the quotas add up to,
    when each category stays within its quota. *)
Lemma bounded_rows_le_sum Q (l : list Scored) :
  (∀ c q, Q !! c = Some q → count c l ≤ q) →
  Z.of_nat (length (filter (λ r, is_Some (Q !! category r)) l))
    ≤ sum_values Q.
Proof.
  induction Q as [|c q Q Hc IH] using map_ind; intros Hle.
  - rewrite sum_values_empty.
    assert (Hnil : filter (λ r, is_Some ((∅ : gmap string Z) !! category r)) l
                   = []).
    { clear Hle. induction l as [|x l IHl]; [done|]. rewrite filter_cons.
      rewrite decide_False by (rewrite lookup_empty; by intros [? ?]).
      exact IHl. }
    by rewrite Hnil.
  - rewrite sum_values_insert by done.
    rewrite (length_filter_split _ (λ r, category r = c)
               (λ r, is_Some (Q !! category r))).
    + rewrite Nat2Z.inj_add.
      assert (count c l ≤ q) by (apply Hle; by rewrite lookup_insert_eq).
      assert (Z.of_nat (length (filter (λ r, is_Some (Q !! category r)) l))
              ≤ sum_values Q).
      { apply IH. intros c' q' Hq'. apply Hle.
        rewrite lookup_insert_ne; [done|]. congruence. }
      lia.
    + intros x. rewrite lookup_insert_is_Some.
      split; [intros [<-|[_ ?]]; eauto|].
      intros [<-|?]; [by left|].
      destruct (decide (c = category x)); eauto.
    + intros x [<- [? ?]]. congruence.
Qed.

(** C2 (amended). For a total limit and quotas that are not negative,
    the walk selects at most [min(T, sum(Q.values()) + u)] rows, where [u] is
    the number of candidates whose category has no quota, and at most
    [Q[c]] rows of each category [c] of the table; the selection is a
    subsequence of the candidates, and a candidate of a category
    without quota is left out only when the selection has reached [T]. *)
Theorem quota_ceiling Q T rows :
  0 ≤ T → (∀ c q, Q !! c = Some q → 0 ≤ q) →
  let sel := quota_select Q T rows in
  Z.of_nat (length sel)
    ≤ Z.min T (sum_values Q +
               Z.of_nat (length (filter (λ r, Q !! category r = None) rows))) ∧
  (∀ c q, Q !! c = Some q → count c sel ≤ q) ∧
  sel `sublist_of` rows ∧
  (∀ r, r ∈ rows → Q !! category r = None → r ∉ sel →
     Z.of_nat (length sel) = T).
Proof.
  intros HT HQ sel.
  destruct (quota_select_inv Q T rows) as (Hsub & Hlen & Hcat & Hfree).
  fold sel in Hsub, Hlen, Hcat, Hfree.
  assert (Hcat' : ∀ c q, Q !! c = Some q → count c sel ≤ q).
  { intros c q Hq. specialize (Hcat c q Hq). specialize (HQ c q Hq). lia. }
  split; [|split; [exact Hcat'|split; [exact Hsub|]]].
  - apply Z.min_glb; [lia|].
    pose proof (bounded_rows_le_sum Q sel Hcat') as Hb.
    pose proof (length_filter_sublist (λ r, Q !! category r = None) _ _ Hsub)
      as Hu.
    pose proof (filter_app_complement (λ r, is_Some (Q !! category r)) sel)
      as Hperm.
    apply Permutation_length in Hperm. rewrite length_app in Hperm.
    assert (Heq : filter (λ r, ¬ is_Some (Q !! category r)) sel
                  = filter (λ r, Q !! category r = None) sel).
    { apply list_filter_iff. intros r.
      by rewrite eq_None_not_Some. }
    rewrite Heq in Hperm. lia.
  - intros r Hr Hnone Hnot. specialize (Hfree r Hr Hnone Hnot). lia.
Qed.

End Quota.

Lemma quota_ceiling_witness :
  0 ≤ 3 ∧ (∀ c q, tech_quota !! c = Some q → 0 ≤ q) ∧
  quota_select tech_quota 3 tech_candidates = [tech 9; tech 8] ∧
  Z.of_nat (length (quota_select tech_quota 3 tech_candidates))
    ≤ Z.min 3 (sum_values tech_quota + 0).
Proof.
  assert (HT : 0 ≤ 3) by lia.
  assert (HQ : ∀ c q, tech_quota !! c = Some q → 0 ≤ q).
  { intros c q. unfold tech_quota.
    intros [[_ <-]|[_ Hq]]%lookup_insert_Some; [lia|].
    by rewrite lookup_empty in Hq. }
  split; [exact HT|]. split; [exact HQ|]. split; [by vm_compute|].
  exact (proj1 (quota_ceiling tech_quota 3 tech_candidates HT HQ)).
Defined.

(** C2 (as stated) fails for a negative limit and for a negative quota:
    the walk then selects no row, or no row of that category, and 0 is
    above the bound the claim states. *)
Lemma quota_ceiling_fails_below_zero :
  let no_quota : gmap string Z := ∅ in
  let minus_one : gmap string Z := <["tech" := -1]> ∅ in
  quota_select no_quota (-1) [tech 9] = [] ∧
  ¬ (Z.of_nat (length (quota_select no_quota (-1) [tech 9]))
       ≤ Z.min (-1)
           (sum_values no_quota +
            Z.of_nat (length (filter (λ r, no_quota !! category r = None)
                                [tech 9])))) ∧
  quota_select minus_one 3 [tech 9] = [] ∧
  minus_one !! "tech" = Some (-1) ∧
  ¬ (Z.of_nat (length (filter (λ r, category r = "tech")
                         (quota_select minus_one 3 [tech 9]))) ≤ -1).
Proof.
  intros no_quota minus_one.
  split; [by vm_compute|]. split; [vm_compute; by intros H|].
  split; [by vm_compute|]. split; [by vm_compute|]. vm_compute. by intros H.
Qed.

(** ** Ranking *)

Section Ranking.

Lemma goes_before_true b r x : goes_before b r x = true → score_ge r x.
Proof.
  unfold goes_before, score_ge.
  destruct b; intros H%bool_decide_eq_true; lia.
Qed.

Lemma goes_before_false b r x : goes_before b r x = false → score_ge x r.
Proof.
  unfold goes_before, score_ge.
  destruct b; intros H%bool_decide_eq_false; lia.
Qed.

Lemma insert_desc_Permutation b r l : insert_desc b r l ≡ₚ r :: l.
Proof.
  induction l as [|x l IH]; [done|]. cbn.
  destruct (goes_before b r x); [done|].
  rewrite IH. apply Permutation_swap.
Qed.

Lemma insert_desc_Sorted b r l :
  Sorted score_ge l → Sorted score_ge (insert_desc b r l).
Proof.
  induction l as [|x l IH]; intros Hs; cbn.
  - by repeat constructor.
  - destruct (goes_before b r x) eqn:Hcmp.
    + constructor; [done|]. constructor. by eapply goes_before_true.
    + apply Sorted_inv in Hs as [Hs Hhd]. constructor; [by apply IH|].
      apply goes_before_false in Hcmp.
      destruct l as [|y l]; cbn; [by constructor|].
      destruct (goes_before b r y); constructor; [done|].
      by apply HdRel_inv in Hhd.
Qed.

(** Both insertion sorts rank: the promise of line 268 does not say in
    which order rows with equal scores come out. *)
Lemma sort_desc_contract : ranks sort_desc.
Proof.
  intros l. induction l as [|x l [IHp IHs]]; [split; [done|constructor]|].
  split; cbn.
  - by rewrite insert_desc_Permutation, IHp.
  - by apply insert_desc_Sorted.
Qed.

Lemma ties_reversed_contract :
  ranks sort_desc_ties_reversed ∧
  sort_desc [tech 5; mkScored a_chip 5 "tech"]
    = [tech 5; mkScored a_chip 5 "tech"] ∧
  sort_desc_ties_reversed [tech 5; mkScored a_chip 5 "tech"]
    = [mkScored a_chip 5 "tech"; tech 5].
Proof.
  split; [|split; reflexivity].
  intros l. induction l as [|x l [IHp IHs]]; [split; [done|constructor]|].
  split; cbn.
  - by rewrite insert_desc_Permutation, IHp.
  - by apply insert_desc_Sorted.
Qed.

End Ranking.

(** * Further properties of the archive store *)

Section ArchiveStore.

Import DatabaseManager.

Implicit Types (tbl : Table) (df : list Article) (now : Z).

(** What a successful append leaves in the table. *)
Lemma insert_rows_lookup now tbl df tbl' :
  insert_rows now tbl df = Some tbl' →
  (∀ a, a ∈ df → tbl' !! url a = Some (entry_of now a)) ∧
  (∀ k, k ∉ url <$> df → tbl' !! k = tbl !! k).
Proof.
  revert tbl. induction df as [|r df IH]; intros tbl; cbn.
  - intros [= <-]. split; [by intros a ?%elem_of_nil|done].
  - destruct (tbl !! url r) eqn:Hr; [done|]. intros Hins.
    destruct (IH _ Hins) as [Hrows Hrest].
    assert (Hfresh : url r ∉ url <$> df).
    { intros (a & Heq & Ha)%list_elem_of_fmap.
      rewrite (insert_rows_collision now _ df a Ha) in Hins; [done|].
      rewrite <- Heq, lookup_insert_eq. eauto. }
    split.
    + intros a [->|Ha]%elem_of_cons; [|by apply Hrows].
      by rewrite (Hrest _ Hfresh), lookup_insert_eq.
    + intros k [Hk1 Hk2]%not_elem_of_cons.
      by rewrite (Hrest _ Hk2), lookup_insert_ne.
Qed.

(** X1. Insert and look up: after [write_new_articles] of a batch whose
    urls are pairwise distinct and not yet in the table, every row of the
    batch is found under its url with its four columns and the time of
    the write, every other key is as before, and [get_existing_urls]
    returns the old urls and those of the batch. *)
Theorem write_new_articles_stores_rows now tbl df :
  NoDup (url <$> df) → (∀ a, a ∈ df → url a ∉ dom tbl) →
  (∀ a, a ∈ df →
     write_new_articles now tbl df !! url a = Some (entry_of now a)) ∧
  (∀ k, k ∉ url <$> df → write_new_articles now tbl df !! k = tbl !! k) ∧
  get_existing_urls (write_new_articles now tbl df)
    = get_existing_urls tbl ∪ list_to_set (url <$> df).
Proof.
  intros Hnd Hnew. split; [|split].
  - intros a Ha. unfold write_new_articles, to_sql.
    destruct df as [|r df]; [by apply elem_of_nil in Ha|].
    destruct (insert_rows_fresh now tbl (r :: df) Hnd) as [tbl' Hins].
    { intros b Hb. by apply not_elem_of_dom, Hnew. }
    rewrite Hins. by apply (insert_rows_lookup _ _ _ _ Hins).
  - intros k Hk. unfold write_new_articles, to_sql.
    destruct df as [|r df]; [done|].
    destruct (insert_rows now tbl (r :: df)) as [tbl'|] eqn:Hins; [|done].
    by apply (insert_rows_lookup _ _ _ _ Hins).
  - by apply write_new_articles_fresh.
Qed.

(** X2. [write_new_articles] never deletes or overwrites: whatever the
    batch, an entry of the table is found unchanged after the call. *)
Theorem write_new_articles_keeps_entries now tbl df k e :
  tbl !! k = Some e → write_new_articles now tbl df !! k = Some e.
Proof.
  intros Hk. unfold write_new_articles, to_sql.
  destruct df as [|r df]; [done|].
  destruct (insert_rows now tbl (r :: df)) as [tbl'|] eqn:Hins; [|done].
  destruct (insert_rows_lookup _ _ _ _ Hins) as [_ Hrest].
  rewrite Hrest; [done|].
  intros (a & Heq & Ha)%list_elem_of_fmap.
  rewrite (insert_rows_collision now tbl (r :: df) a Ha) in Hins; [done|].
  rewrite <- Heq. eauto.
Qed.

(** The rows [clean_old_articles] keeps. *)
Lemma clean_old_articles_lookup cutoff days tbl k e :
  clean_old_articles cutoff days tbl !! k = Some e ↔
  tbl !! k = Some e ∧ (days ≤ 0 ∨ cutoff ≤ insert_timestamp e).
Proof.
  unfold clean_old_articles. case_decide.
  - rewrite map_lookup_filter_Some. cbn. split; intros [? ?]; (split; [done|lia]).
  - split; [intros ?; split; [done|lia]|by intros [? _]].
Qed.

(** [clean_old_articles] keeps exactly the entries whose
    [insert_timestamp] is not before the cutoff, never adds or changes
    one, and keeps everything when [days_to_keep] is not positive. *)
Lemma clean_old_articles_spec cutoff days tbl :
  (∀ k e, clean_old_articles cutoff days tbl !! k = Some e ↔
          tbl !! k = Some e ∧ (days ≤ 0 ∨ cutoff ≤ insert_timestamp e)) ∧
  clean_old_articles cutoff days tbl ⊆ tbl ∧
  (days ≤ 0 → clean_old_articles cutoff days tbl = tbl).
Proof.
  split; [intros k e; apply clean_old_articles_lookup|]. split.
  - apply map_subseteq_spec. intros k e.
    by intros [? _]%clean_old_articles_lookup.
  - intros Hd. unfold clean_old_articles. by rewrite decide_False by lia.
Qed.

(** X3. Cleaning twice with the same retention days is cleaning once
    with the later of the two cutoffs, in either order; in particular
    cleaning again with the same cutoff changes nothing. *)
Theorem clean_old_articles_twice cutoff1 cutoff2 days tbl :
  clean_old_articles cutoff2 days (clean_old_articles cutoff1 days tbl)
    = clean_old_articles (Z.max cutoff1 cutoff2) days tbl ∧
  clean_old_articles cutoff1 days (clean_old_articles cutoff1 days tbl)
    = clean_old_articles cutoff1 days tbl.
Proof.
  split; apply map_eq; intros k; apply option_eq; intros e;
    rewrite !clean_old_articles_lookup; intuition lia.
Qed.

(** A fresh row after the write and a later cleaning. *)
Lemma clean_write_lookup t_write cutoff days tbl df a :
  NoDup (url <$> df) → (∀ b, b ∈ df → url b ∉ dom tbl) →
  days ≤ 0 ∨ cutoff ≤ t_write → a ∈ df →
  clean_old_articles cutoff days (write_new_articles t_write tbl df)
    !! url a = Some (entry_of t_write a).
Proof.
  intros Hnd Hnew Ht Ha. apply clean_old_articles_lookup. split.
  - unfold write_new_articles, to_sql.
    destruct df as [|r df]; [by apply elem_of_nil in Ha|].
    destruct (insert_rows_fresh t_write tbl (r :: df) Hnd) as [tbl' Hins].
    { intros b Hb. by apply not_elem_of_dom, Hnew. }
    rewrite Hins. by apply (insert_rows_lookup _ _ _ _ Hins).
  - by cbn.
Qed.

(** X4. Rows written at [t_write] survive a cleaning whose cutoff is not
    after [t_write]: every row of a fresh batch is then still found
    under its url, and rows that were in the table before are kept or
    dropped by their own timestamps. *)
Theorem fresh_rows_survive_cleaning t_write cutoff days tbl df :
  NoDup (url <$> df) → (∀ a, a ∈ df → url a ∉ dom tbl) →
  cutoff ≤ t_write →
  (∀ a, a ∈ df →
     clean_old_articles cutoff days (write_new_articles t_write tbl df)
       !! url a = Some (entry_of t_write a)) ∧
  (∀ k, k ∉ url <$> df →
     clean_old_articles cutoff days (write_new_articles t_write tbl df) !! k
       = clean_old_articles cutoff days tbl !! k).
Proof.
  intros Hnd Hnew Ht. split.
  - intros a Ha. apply clean_write_lookup; [done|done|by right|done].
  - intros k Hk. apply option_eq. intros e.
    rewrite !clean_old_articles_lookup.
    assert (Hsame : write_new_articles t_write tbl df !! k = tbl !! k).
    { unfold write_new_articles, to_sql. destruct df as [|r df]; [done|].
      destruct (insert_rows t_write tbl (r :: df)) as [tbl'|] eqn:Hins; [|done].
      by apply (insert_rows_lookup _ _ _ _ Hins). }
    by rewrite Hsame.
Qed.

(** X5. A batch in which a url occurs twice is not stored: the second
    insert violates the primary key and the append is rolled back. *)
Theorem write_duplicate_url_stores_nothing now tbl df a b i j :
  df !! i = Some a → df !! j = Some b → i ≠ j → url a = url b →
  write_new_articles now tbl df = tbl.
Proof.
  intros Hi Hj Hne Heq. apply write_repeated_url_rolls_back.
  intros Hnd. apply Hne.
  apply (NoDup_lookup _ i j (url a) Hnd).
  - by rewrite list_lookup_fmap, Hi.
  - by rewrite list_lookup_fmap, Hj, Heq.
Qed.

End ArchiveStore.

Lemma write_new_articles_stores_rows_witness :
  NoDup (url <$> [c_flood; f_vote]) ∧
  (∀ a, a ∈ [c_flood; f_vote] → url a ∉ dom sample_archive) ∧
  DatabaseManager.write_new_articles 1000 sample_archive [c_flood; f_vote]
    !! "http://f" = Some (DatabaseManager.entry_of 1000 f_vote) ∧
  DatabaseManager.write_new_articles 1000 sample_archive [c_flood; f_vote]
    !! "http://a" = sample_archive !! "http://a".
Proof.
  assert (Hnd : NoDup (url <$> [c_flood; f_vote])) by by_evaluation.
  assert (Hnew : ∀ a, a ∈ [c_flood; f_vote] → url a ∉ dom sample_archive).
  { intros a Ha. each_row Ha; by_evaluation. }
  split; [exact Hnd|]. split; [exact Hnew|].
  destruct (write_new_articles_stores_rows 1000 sample_archive
              [c_flood; f_vote] Hnd Hnew) as (Hrows & Hrest & _).
  split.
  - apply (Hrows f_vote). right; left.
  - apply Hrest. by_evaluation.
Defined.

Lemma write_new_articles_keeps_entries_witness :
  sample_archive !! "http://a" = Some (DatabaseManager.entry_of 5 a_chip) ∧
  DatabaseManager.write_new_articles 1000 sample_archive [a_chip; c_flood]
    !! "http://a" = Some (DatabaseManager.entry_of 5 a_chip) ∧
  DatabaseManager.write_new_articles 1000 sample_archive [c_flood]
    !! "http://a" = Some (DatabaseManager.entry_of 5 a_chip).
Proof.
  assert (H : sample_archive !! "http://a"
              = Some (DatabaseManager.entry_of 5 a_chip)) by by vm_compute.
  split; [exact H|]. split.
  - exact (write_new_articles_keeps_entries 1000 sample_archive
             [a_chip; c_flood] _ _ H).
  - exact (write_new_articles_keeps_entries 1000 sample_archive
             [c_flood] _ _ H).
Defined.

Lemma fresh_rows_survive_cleaning_witness :
  NoDup (url <$> [c_flood; f_vote]) ∧
  (∀ a, a ∈ [c_flood; f_vote] → url a ∉ dom sample_archive) ∧
  95200 ≤ 690000 ∧
  DatabaseManager.clean_old_articles 95200 7
    (DatabaseManager.write_new_articles 690000 sample_archive
       [c_flood; f_vote])
    !! "http://c" = Some (DatabaseManager.entry_of 690000 c_flood) ∧
  DatabaseManager.clean_old_articles 95200 7
    (DatabaseManager.write_new_articles 690000 sample_archive
       [c_flood; f_vote])
    !! "http://a" = None.
Proof.
  assert (Hnd : NoDup (url <$> [c_flood; f_vote])) by by_evaluation.
  assert (Hnew : ∀ a, a ∈ [c_flood; f_vote] → url a ∉ dom sample_archive).
  { intros a Ha. each_row Ha; by_evaluation. }
  assert (Ht : 95200 ≤ 690000) by lia.
  split; [exact Hnd|]. split; [exact Hnew|]. split; [exact Ht|].
  destruct (fresh_rows_survive_cleaning 690000 95200 7 sample_archive
              [c_flood; f_vote] Hnd Hnew Ht) as [Hrows Hrest].
  split.
  - apply (Hrows c_flood). left.
  - rewrite Hrest; [by vm_compute|by_evaluation].
Defined.

Lemma write_duplicate_url_stores_nothing_witness :
  let split_entry :=
    [c_flood; mkArticle "http://c" "Second item of the entry" "BBC" (Some T1) "d"] in
  DatabaseManager.write_new_articles 1000 sample_archive split_entry
    = sample_archive.
Proof.
  intros split_entry.
  exact (write_duplicate_url_stores_nothing 1000 sample_archive split_entry
           c_flood
           (mkArticle "http://c" "Second item of the entry" "BBC" (Some T1) "d")
           0 1 eq_refl eq_refl ltac:(done) eq_refl).
Defined.

(** * Further properties of the ingestion and of [main] *)

Section MoreIngestion.

Variable scoring_service : list string → ScoringOutcome.
Variable local_date_of : string → option Z.
Variable str_contains : string → string → bool.
Variable sort_values : list Scored → list Scored.





(** X6. The batch [main] scores (lines 202-248) is a subsequence of the
    fetched rows; its rows are new and published today, no two of them
    have the same title, and the title of every new row published today
    is the title of a row of the batch. *)
Theorem today_new_articles_spec today (existing : gset string) raw :
  let batch := today_new_articles local_date_of today existing raw in
  batch `sublist_of` raw ∧
  NoDup (title <$> batch) ∧
  (∀ a, a ∈ batch →
     a ∈ raw ∧ (url a ∉ existing) ∧
     published_today local_date_of today a = true) ∧
  (∀ a, a ∈ raw → url a ∉ existing →
     published_today local_date_of today a = true →
     ∃ b, b ∈ batch ∧ title b = title a).
Proof.
  intros batch. split; [|split; [|split]].
  - unfold batch, today_new_articles, date_filter, new_articles.
    etrans; [apply drop_duplicates_sublist|].
    etrans; apply sublist_filter.
  - apply NoDup_drop_duplicates.
  - intros a Ha. by apply today_new_articles_fresh.
  - intros a Ha Hnew Htoday.
    apply drop_duplicates_from_key; [|apply not_elem_of_nil].
    apply list_elem_of_filter. split; [done|]. by apply elem_of_new_articles.
Qed.



(** The two tables of a run, by exit. *)
Lemma main_tables cfg today t_write t_clean tbl results :
  let batch :=
    today_new_articles local_date_of today
      (DatabaseManager.get_existing_urls tbl)
      (concat (filter (λ df : list Article, df ≠ []) results)) in
  let run :=
    main scoring_service local_date_of str_contains sort_values
         cfg today t_write t_clean tbl results in
  written run =
    match exit run with
    | Done _ => DatabaseManager.write_new_articles t_write tbl batch
    | _ => tbl
    end ∧
  closed run =
    match exit run with
    | Done _ =>
        retention cfg t_clean
          (DatabaseManager.write_new_articles t_write tbl batch)
    | NoNewArticles => retention cfg t_clean tbl
    | _ => tbl
    end.
Proof.
  intros batch run. unfold run. rewrite main_cascade. fold batch.
  rewrite art_add_frequency_bonus, art_classify.
  repeat case_decide; try done.
  destruct (scoring_failed _); [done|].
  by destruct (category_column_missing _ _ _ _ _ _).
Qed.

(** The rows of a completed run in the table the run leaves behind. *)
Lemma retention_write_lookup cfg t_write t_clean
    (tbl : DatabaseManager.Table) df a :
  NoDup (url <$> df) → (∀ b, b ∈ df → url b ∉ dom tbl) →
  (retention_enabled cfg = false ∨ days_to_keep cfg ≤ 0 ∨
   t_clean ≤ t_write) →
  a ∈ df →
  retention cfg t_clean (DatabaseManager.write_new_articles t_write tbl df)
    !! url a = Some (DatabaseManager.entry_of t_write a).
Proof.
  intros Hnd Hnew Hkeep Ha.
  assert (Hw : DatabaseManager.write_new_articles t_write tbl df !! url a
               = Some (DatabaseManager.entry_of t_write a)).
  { pose proof (clean_write_lookup t_write t_write 0 tbl df a Hnd Hnew
                  ltac:(lia) Ha) as H.
    by apply clean_old_articles_lookup in H as [H _]. }
  unfold retention. destruct (retention_enabled cfg) eqn:Hen; [|done].
  apply clean_old_articles_lookup. split; [done|]. cbn.
  destruct Hkeep as [?|[?|?]]; [done|by left|by right].
Qed.

(** X9. Idempotence over two runs: when a run ends with a final list,
    the urls of its batch are pairwise distinct and the retention step
    is off or its cutoff is not after the time of the write, every row
    of the batch is archived when the run ends, and a later run that
    fetches only rows of that batch finds nothing new. *)
Theorem archived_rows_not_new_again
    cfg today t_write t_clean tbl results final_list_df :
  let raw := concat (filter (λ df : list Article, df ≠ []) results) in
  let batch :=
    today_new_articles local_date_of today
      (DatabaseManager.get_existing_urls tbl) raw in
  let run :=
    main scoring_service local_date_of str_contains sort_values
         cfg today t_write t_clean tbl results in
  exit run = Done final_list_df →
  NoDup (url <$> batch) →
  (retention_enabled cfg = false ∨ days_to_keep cfg ≤ 0 ∨
   t_clean ≤ t_write) →
  (∀ a, a ∈ batch → url a ∈ DatabaseManager.get_existing_urls (closed run)) ∧
  (∀ svc' dates' contains' sortv' cfg' today' t_write' t_clean' results',
     (∀ a, a ∈ concat (filter (λ df : list Article, df ≠ []) results') →
           a ∈ batch) →
     exit (main svc' dates' contains' sortv' cfg' today' t_write' t_clean'
             (closed run) results') = NoNewArticles ∨
     exit (main svc' dates' contains' sortv' cfg' today' t_write' t_clean'
             (closed run) results') = NoData).
Proof.
  intros raw batch run Hdone Hnd Hkeep.
  assert (Hin : ∀ a, a ∈ batch →
                     url a ∈ DatabaseManager.get_existing_urls (closed run)).
  { intros a Ha. apply elem_of_dom.
    destruct (main_tables cfg today t_write t_clean tbl results)
      as [_ Hclosed].
    fold raw batch run in Hclosed. rewrite Hclosed, Hdone.
    rewrite (retention_write_lookup cfg t_write t_clean tbl batch a);
      [eauto|done| |done|done].
    intros b Hb. by apply today_new_articles_fresh in Hb as (_ & ? & _). }
  split; [exact Hin|].
  intros svc' dates' contains' sortv' cfg' today' t_write' t_clean' results'
         Hsame.
  unfold main.
  destruct (filter (λ df : list Article, df ≠ []) results')
    as [|df0 dfs] eqn:Hres; [by right|].
  rewrite new_articles_all_archived; [by left|].
  intros a Ha. by apply Hin, Hsame.
Qed.

(** The dictionary built from the answer holds, for a title, the last
    object listed for it. *)
Lemma result_map_lookup items t :
  result_map items !! t =
    (λ it, (item_score it, item_category it))
      <$> last (filter (λ it, item_title it = t) items).
Proof.
  unfold result_map. induction items as [|x items IH] using rev_ind; [done|].
  rewrite foldl_snoc, filter_app, filter_cons, filter_nil.
  destruct (decide (item_title x = t)) as [<-|Hne].
  - by rewrite lookup_insert_eq, last_snoc.
  - by rewrite lookup_insert_ne, app_nil_r.
Qed.

(** X10. When the service answers with a list of objects, every row of
    the frame gets the score and the category of the last object listed
    for its title, and score 0 with the unknown category when no object
    has its title; objects for other titles change nothing. *)
Theorem classify_answered df items :
  scoring_service (title <$> drop_duplicates title df) = Results items →
  ai_rank_and_classify_articles scoring_service df =
    (λ a, match last (filter (λ it, item_title it = title a) items) with
          | Some it => mkScored a (item_score it) (item_category it)
          | None => mkScored a 0 UNKNOWN
          end) <$> df.
Proof.
  intros Hans. destruct df as [|a df]; [done|].
  unfold ai_rank_and_classify_articles. rewrite Hans.
  apply list_fmap_ext. intros i b _. rewrite result_map_lookup.
  by destruct (last _).
Qed.

End MoreIngestion.


Lemma archived_rows_not_new_again_witness :
  let results := [[a_chip; b_chip]; []; [c_flood; d_old; e_chip; f_vote]] in
  let run := sample_main sample_config 1 1000 500 ∅ results in
  (∃ final_list_df, exit run = Done final_list_df) ∧
  NoDup (url <$> [a_chip; c_flood; f_vote]) ∧
  500 ≤ 1000 ∧
  exit (main service_down sample_dates contains_literal sort_desc
          sample_config 1 2000 2001 (closed run) [[a_chip; f_vote]; []])
    = NoNewArticles.
Proof.
  intros results run.
  assert (Hnd : NoDup (url <$> [a_chip; c_flood; f_vote])) by by_evaluation.
  assert (Hkeep : 500 ≤ 1000) by lia.
  assert (Hexit : ∃ final_list_df, exit run = Done final_list_df)
    by (eexists; by vm_compute).
  split; [exact Hexit|]. split; [exact Hnd|].
  split; [exact Hkeep|]. destruct Hexit as [final_list_df Hexit].
  destruct (archived_rows_not_new_again
              (service_answers sample_items) sample_dates contains_literal
              sort_desc sample_config 1 1000 500 ∅ results final_list_df
              Hexit Hnd (or_intror (or_intror Hkeep))) as [_ Hnext].
  destruct (Hnext service_down sample_dates contains_literal sort_desc
              sample_config 1 2000 2001 [[a_chip; f_vote]; []])
    as [H|H]; [|exact H|].
  - intros a Ha. cbn in Ha. each_row Ha; by_evaluation.
  - vm_compute in H. discriminate H.
Defined.

Lemma classify_answered_witness :
  let answer :=
    [ mkItem "Flood warning issued" 4 "国际动态";
      mkItem "Somebody else's story" 9 "国际动态";
      mkItem "Flood warning issued" 5 "社会与文化" ] in
  service_answers answer (title <$> drop_duplicates title [a_chip; c_flood])
    = Results answer ∧
  ai_rank_and_classify_articles (service_answers answer) [a_chip; c_flood]
    = [mkScored a_chip 0 UNKNOWN; mkScored c_flood 5 "社会与文化"].
Proof.
  intros answer. split; [reflexivity|].
  rewrite (classify_answered (service_answers answer) [a_chip; c_flood]
             answer eq_refl).
  by vm_compute.
Defined.


(** * Further properties of the source workers and the force-keep rules *)

Section Adapters.

Variable scoring_service : list string → ScoringOutcome.
Variable local_date_of : string → option Z.
Variable str_contains : string → string → bool.
Variable sort_values : list Scored → list Scored.
Variable parsers : string → option (SiteConfig → option (list Article)).

(** [main] reads the frames only through the non-empty ones. *)
Lemma main_nonempty_frames cfg today t_write t_clean tbl results results' :
  filter (λ df : list Article, df ≠ []) results
    = filter (λ df : list Article, df ≠ []) results' →
  main scoring_service local_date_of str_contains sort_values
       cfg today t_write t_clean tbl results
  = main scoring_service local_date_of str_contains sort_values
         cfg today t_write t_clean tbl results'.
Proof. intros Heq. unfold main. by rewrite Heq. Qed.

(** X12. A site that names no parser class, names one that is not a
    parser, or whose parser raises or returns an empty frame contributes
    an empty frame, and the run is the run without that site: the other
    sites' rows, the exit and both tables are the same. *)
Theorem failed_source_ignored site :
  (parser_class site = None ∨ parser_class site = Some "" ∨
   (∃ name, parser_class site = Some name ∧ parsers name = None) ∨
   (∃ name parse, parser_class site = Some name ∧
                  parsers name = Some parse ∧
                  (parse site = None ∨ parse site = Some []))) →
  parse_single_source parsers site = [] ∧
  ∀ cfg today t_write t_clean tbl sites1 sites2,
    main scoring_service local_date_of str_contains sort_values
         cfg today t_write t_clean tbl
         (parse_single_source parsers <$> (sites1 ++ site :: sites2))
    = main scoring_service local_date_of str_contains sort_values
           cfg today t_write t_clean tbl
           (parse_single_source parsers <$> (sites1 ++ sites2)).
Proof.
  intros Hfail.
  assert (Hnil : parse_single_source parsers site = []).
  { unfold parse_single_source.
    destruct Hfail as [->|[->|[(name & -> & Hp)|(name & parse & -> & Hp & Hr)]]];
      [done|done| |].
    - case_decide; [done|]. by rewrite Hp.
    - case_decide; [done|]. rewrite Hp. by destruct Hr as [-> | ->]. }
  split; [exact Hnil|]. intros cfg today t_write t_clean tbl sites1 sites2.
  apply main_nonempty_frames.
  rewrite !fmap_app, fmap_cons, Hnil, !filter_app, filter_cons.
  by rewrite decide_False by (by intros ?).
Qed.

End Adapters.

Section RuleSemantics.

Variable str_contains : string → string → bool.

Implicit Types (r : Scored) (rule : Rule) (rules : list Rule).

(** A cell of the mask that is set stays set. *)
Lemma rule_mask_set r rule : rule_mask str_contains r true rule = true.
Proof. unfold rule_mask. repeat case_match; done. Qed.

Lemma rule_mask_orb r m rule :
  rule_mask str_contains r m rule
    = m || rule_mask str_contains r false rule.
Proof. destruct m; [apply rule_mask_set|done]. Qed.

Lemma force_keep_mask_fold r m rules :
  foldl (rule_mask str_contains r) m rules
    = m || existsb (λ rule, force_keep_mask str_contains [rule] r) rules.
Proof.
  revert m. induction rules as [|rule rules IH]; intros m; cbn.
  - by rewrite orb_false_r.
  - rewrite IH, rule_mask_orb. by rewrite orb_assoc.
Qed.

(** X13. The rule set is the disjunction of its rules: a row is forced
    exactly when one rule alone forces it, so appending rules never
    releases a forced row, the order of the rules does not matter, and
    the forced frame of a longer rule list contains the forced frame of
    the shorter one. *)
Theorem force_keep_any_rule rules r :
  (force_keep_mask str_contains rules r = true ↔
     ∃ rule, rule ∈ rules ∧ force_keep_mask str_contains [rule] r = true) ∧
  (∀ rules', force_keep_mask str_contains (rules ++ rules') r
             = force_keep_mask str_contains rules r
               || force_keep_mask str_contains rules' r) ∧
  (∀ rules', rules ≡ₚ rules' →
             force_keep_mask str_contains rules' r
             = force_keep_mask str_contains rules r) ∧
  (∀ rules' df,
     r ∈ (apply_force_keep_rules str_contains df rules).1 →
     r ∈ (apply_force_keep_rules str_contains df (rules ++ rules')).1).
Proof.
  assert (Hiff : ∀ l, force_keep_mask str_contains l r = true ↔
                      ∃ rule, rule ∈ l ∧
                              force_keep_mask str_contains [rule] r = true).
  { intros l. unfold force_keep_mask at 1. rewrite force_keep_mask_fold.
    cbn [orb]. rewrite existsb_exists. split.
    - intros (rule & Hin%list_elem_of_In & Hm). eauto.
    - intros (rule & Hin%list_elem_of_In & Hm). eauto. }
  assert (Happ : ∀ rules', force_keep_mask str_contains (rules ++ rules') r
                           = force_keep_mask str_contains rules r
                             || force_keep_mask str_contains rules' r).
  { intros rules'. unfold force_keep_mask.
    by rewrite foldl_app, (force_keep_mask_fold r (foldl _ _ _)),
         (force_keep_mask_fold r false rules'). }
  split; [apply Hiff|]. split; [exact Happ|]. split.
  - intros rules' Hperm. apply eq_true_iff_eq. rewrite !Hiff.
    by setoid_rewrite Hperm.
  - intros rules' df. rewrite !apply_force_keep_rules_filters. cbn [fst].
    rewrite !list_elem_of_filter, Happ. intros [-> ?]. done.
Qed.

(** One pass of the composite loop leaves the cell set exactly when it
    was set and the condition holds. *)
Lemma condition_mask_true r m (kv : string * string) :
  condition_mask str_contains r m kv = true ↔
  m = true ∧
  (kv.1 = "source" → source (art r) = kv.2) ∧
  (kv.1 = "category" → category r = kv.2) ∧
  (kv.1 = "keyword" → str_contains kv.2 (title (art r)) = true).
Proof.
  unfold condition_mask. destruct kv as [k v]. cbn [fst snd].
  destruct (decide (k = "source")) as [->|H1].
  { rewrite andb_true_iff, bool_decide_eq_true.
    split; [intros [? ?]; by repeat split|intros (? & H & _); auto]. }
  destruct (decide (k = "category")) as [->|H2].
  { rewrite andb_true_iff, bool_decide_eq_true.
    split; [intros [? ?]; by repeat split|intros (? & _ & H & _); auto]. }
  destruct (decide (k = "keyword")) as [->|H3].
  { rewrite andb_true_iff.
    split; [intros [? ?]; by repeat split|intros (? & _ & _ & H); auto]. }
  split; [intros ->; by repeat split|by intros [? _]].
Qed.

Lemma composite_mask_true r m (conds : list (string * string)) :
  foldl (condition_mask str_contains r) m conds = true ↔
  m = true ∧
  ∀ kv, kv ∈ conds →
    (kv.1 = "source" → source (art r) = kv.2) ∧
    (kv.1 = "category" → category r = kv.2) ∧
    (kv.1 = "keyword" → str_contains kv.2 (title (art r)) = true).
Proof.
  revert m. induction conds as [|kv conds IH]; intros m; cbn [foldl].
  - split; [intros ->; split; [done|by intros ? ?%elem_of_nil]|by intros [? _]].
  - rewrite IH, condition_mask_true. split.
    + intros [(Hm & Hkv) Hrest]. split; [done|].
      intros kv' [->|Hin]%elem_of_cons; [done|by apply Hrest].
    + intros [Hm Hall]. split; [split; [done|apply Hall; left]|].
      intros kv' Hin. apply Hall. by right.
Qed.

(** X14. A composite rule forces a row exactly when every condition with
    the key [source], [category] or [keyword] holds for the row;
    conditions with any other key are skipped, so a composite rule with
    no condition of these three keys forces every row. *)
Theorem composite_rule_spec vals (conds : list (string * string)) r :
  let rule := mkRule (Some "composite") vals (Some conds) in
  (force_keep_mask str_contains [rule] r = true ↔
     ∀ k v, (k, v) ∈ conds →
       (k = "source" → source (art r) = v) ∧
       (k = "category" → category r = v) ∧
       (k = "keyword" → str_contains v (title (art r)) = true)) ∧
  ((∀ k v, (k, v) ∈ conds →
           k ≠ "source" ∧ k ≠ "category" ∧ k ≠ "keyword") →
   force_keep_mask str_contains [rule] r = true).
Proof.
  intros rule.
  assert (Hmask : force_keep_mask str_contains [rule] r
                  = foldl (condition_mask str_contains r) true conds).
  { unfold rule. by destruct vals. }
  assert (Hiff : force_keep_mask str_contains [rule] r = true ↔
     ∀ k v, (k, v) ∈ conds →
       (k = "source" → source (art r) = v) ∧
       (k = "category" → category r = v) ∧
       (k = "keyword" → str_contains v (title (art r)) = true)).
  { rewrite Hmask, composite_mask_true. split.
    - intros [_ H] k v Hin. apply (H (k, v) Hin).
    - intros H. split; [done|]. intros [k v] Hin. apply (H k v Hin). }
  split; [exact Hiff|]. intros Hother. apply Hiff. intros k v Hin.
  destruct (Hother k v Hin) as (? & ? & ?). done.
Qed.

(** X15. A rule forces nothing when it has no type, when its type is not
    one of the four, or when it lacks the key its type reads ([values],
    or [conditions] for a composite rule). *)
Theorem rule_without_effect rule r :
  rule_type rule = None ∨
  (rule_type rule ≠ Some "keyword" ∧ rule_type rule ≠ Some "source" ∧
   rule_type rule ≠ Some "category" ∧ rule_type rule ≠ Some "composite") ∨
  (rule_type rule ≠ Some "composite" ∧ values rule = None) ∨
  (rule_type rule = Some "composite" ∧ conditions rule = None) →
  force_keep_mask str_contains [rule] r = false.
Proof.
  destruct rule as [ty vals conds]. cbn [rule_type values conditions].
  intros [->|[(H1 & H2 & H3 & H4)|[[H ->]|[-> ->]]]].
  - done.
  - cbn. unfold rule_mask. cbn [rule_type values conditions].
    repeat case_match; try done; subst; congruence.
  - cbn. unfold rule_mask. cbn [rule_type values conditions].
    repeat case_match; try done; subst; congruence.
  - by destruct vals.
Qed.

End RuleSemantics.

(** * Further properties of the selection *)

Section Selection.

Variable str_contains : string → string → bool.
Variable sort_values : list Scored → list Scored.

Implicit Types (Q counts : gmap string Z) (T : Z) (rows sel : list Scored).

Local Abbreviation count c l :=
  (Z.of_nat (length (filter (λ r : Scored, category r = c) l))).

(** The counters after a row of a counted category is appended. *)
Lemma counters_after_counted Q sel counts x n :
  (∀ c, is_Some (counts !! c) ↔ is_Some (Q !! c)) →
  (∀ c m, counts !! c = Some m → m = count c sel) →
  counts !! category x = Some n →
  (∀ c, is_Some (<[category x := n + 1]> counts !! c) ↔ is_Some (Q !! c)) ∧
  (∀ c m, <[category x := n + 1]> counts !! c = Some m →
          m = count c (sel ++ [x])).
Proof.
  intros Hkeys Hcnt Hn. split.
  - intros c. rewrite lookup_insert_is_Some, <- Hkeys.
    split; [intros [<-|[_ ?]]; eauto|]. intros ?.
    destruct (decide (category x = c)); eauto.
  - intros c m. rewrite count_snoc.
    destruct (decide (category x = c)) as [<-|Hne].
    + rewrite lookup_insert_eq. intros [= <-]. apply Hcnt in Hn. lia.
    + rewrite lookup_insert_ne by done. intros ?%Hcnt. lia.
Qed.

(** The counters after a row of a category without quota is appended. *)
Lemma counters_after_free Q sel counts x :
  (∀ c m, counts !! c = Some m → m = count c sel) →
  counts !! category x = None →
  ∀ c m, counts !! c = Some m → m = count c (sel ++ [x]).
Proof.
  intros Hcnt Hn c m Hm. rewrite count_snoc.
  destruct (decide (category x = c)) as [<-|Hne]; [congruence|].
  apply Hcnt in Hm. lia.
Qed.

Lemma quota_walk_skipped Q T rows sel counts r q :
  (∀ c, is_Some (counts !! c) ↔ is_Some (Q !! c)) →
  (∀ c m, counts !! c = Some m → m = count c sel) →
  r ∈ rows → Q !! category r = Some q →
  r ∉ quota_walk Q T rows sel counts →
  T ≤ Z.of_nat (length (quota_walk Q T rows sel counts)) ∨
  q ≤ count (category r) (quota_walk Q T rows sel counts).
Proof.
  revert sel counts.
  induction rows as [|x rest IH]; intros sel counts Hkeys Hcnt Hr Hq;
    [by apply elem_of_nil in Hr|].
  cbn [quota_walk].
  destruct (decide (T ≤ Z.of_nat (length sel))) as [Hfull|Hroom];
    [by left|].
  destruct (counts !! category x) as [n|] eqn:Hn.
  - destruct (proj1 (Hkeys (category x)) ltac:(eauto)) as [qx Hqx].
    rewrite Hqx. destruct (decide (n < qx)) as [Hlt|Hge].
    + destruct (counters_after_counted Q sel counts x n Hkeys Hcnt Hn)
        as [Hkeys' Hcnt'].
      destruct (quota_walk_inv Q T rest (sel ++ [x])
                  (<[category x := n + 1]> counts) Hkeys' Hcnt')
        as (picked & Hout & _).
      apply elem_of_cons in Hr as [->|Hr]; [|by apply IH].
      intros Hnot. destruct Hnot. rewrite Hout.
      apply elem_of_app. left. apply elem_of_app. right. left.
    + apply elem_of_cons in Hr as [->|Hr]; [|by apply IH].
      intros _. right.
      destruct (quota_walk_inv Q T rest sel counts Hkeys Hcnt)
        as (picked & -> & _).
      rewrite filter_app, length_app.
      apply Hcnt in Hn. rewrite Hqx in Hq. injection Hq as <-. lia.
  - assert (HQ : Q !! category x = None).
    { destruct (Q !! category x) eqn:HQ; [|done].
      destruct (proj2 (Hkeys (category x)) ltac:(eauto)). congruence. }
    apply elem_of_cons in Hr as [->|Hr]; [congruence|].
    apply IH; [done| |done|done].
    by apply counters_after_free.
Qed.

(** X16. A candidate of a category with a quota is left out of the
    selection only when the selection has reached the total limit or
    already holds as many rows of that category as its quota allows. *)
Theorem quota_skipped_row_reason Q T rows r q :
  r ∈ rows → Q !! category r = Some q → r ∉ quota_select Q T rows →
  T ≤ Z.of_nat (length (quota_select Q T rows)) ∨
  q ≤ count (category r) (quota_select Q T rows).
Proof.
  unfold quota_select. apply quota_walk_skipped.
  - intros c. by rewrite lookup_fmap, fmap_is_Some.
  - intros c n. rewrite lookup_fmap. by intros (? & ? & ->)%fmap_Some.
Qed.

Lemma score_ge_trans : Transitive score_ge.
Proof. unfold score_ge. intros x y z ? ?. lia. Qed.

Lemma StronglySorted_sublist (l1 l2 : list Scored) :
  l1 `sublist_of` l2 → StronglySorted score_ge l2 →
  StronglySorted score_ge l1.
Proof.
  induction 1 as [|x l1 l2 Hsub IH|x l1 l2 Hsub IH]; [done| |].
  - intros [Hs Hall]%StronglySorted_inv. constructor; [by apply IH|].
    apply Forall_forall. intros y Hy.
    rewrite Forall_forall in Hall. apply Hall.
    eapply elem_of_sublist; eauto.
  - intros [Hs _]%StronglySorted_inv. by apply IH.
Qed.

(** X17. When the library sort returns the candidates in non-increasing
    score order, the quota selection is a subsequence of the ranked
    candidates: every selected row is a candidate, and every selected
    row scores at least as much as each row selected after it. *)
Theorem quota_selection_ranked Q T candidates :
  ranks sort_values →
  let sel := quota_select Q T (sort_values candidates) in
  sel `sublist_of` sort_values candidates ∧
  (∀ r, r ∈ sel → r ∈ candidates) ∧
  StronglySorted score_ge sel.
Proof.
  intros Hranks sel. destruct (Hranks candidates) as [Hperm Hsorted].
  destruct (quota_select_inv Q T (sort_values candidates)) as (Hsub & _).
  fold sel in Hsub. split; [exact Hsub|]. split.
  - intros r Hr. rewrite <- Hperm. by apply (elem_of_sublist sel).
  - apply (StronglySorted_sublist _ _ Hsub).
    apply Sorted_StronglySorted; [apply score_ge_trans|exact Hsorted].
Qed.

(** A frame without repeated keys is left as it is. *)
Lemma drop_duplicates_from_distinct {A K} `{EqDecision K}
    (key : A → K) (seen : list K) (l : list A) :
  NoDup (key <$> l) → (∀ x, x ∈ l → key x ∉ seen) →
  drop_duplicates_from key seen l = l.
Proof.
  revert seen. induction l as [|x l IH]; intros seen Hnd Hseen; [done|].
  rewrite fmap_cons in Hnd. apply NoDup_cons in Hnd as [Hx Hnd]. cbn.
  rewrite decide_False by (apply Hseen; left). f_equal.
  apply IH; [done|]. intros y Hy [Heq|Hin]%elem_of_cons.
  - apply Hx. rewrite <- Heq. apply list_elem_of_fmap. eauto.
  - apply (Hseen y); [by right|done].
Qed.

(** The merged frame before the final dedup has no repeated key when the
    scored frame has none and the sort returns its input rearranged. *)
Lemma merged_keys_distinct rules Q T df :
  (∀ l, sort_values l ≡ₚ l) → NoDup (row_key <$> df) →
  NoDup (row_key <$>
           (filter (λ r, force_keep_mask str_contains rules r = true) df ++
            quota_select Q T
              (sort_values
                 (filter (λ r, ¬ force_keep_mask str_contains rules r = true)
                    df)))).
Proof.
  intros Hperm Hnd.
  set (forced := filter (λ r, force_keep_mask str_contains rules r = true) df).
  set (candidates :=
         filter (λ r, ¬ force_keep_mask str_contains rules r = true) df).
  destruct (quota_select_inv Q T (sort_values candidates)) as (Hsub & _).
  eapply sublist_NoDup; [|apply fmap_sublist, sublist_app; [done|exact Hsub]].
  rewrite (Hperm candidates). unfold forced, candidates.
  by rewrite filter_app_complement.
Qed.

(** The final list of a frame without repeated keys. *)
Lemma final_list_plain rules Q T df :
  (∀ l, sort_values l ≡ₚ l) → NoDup (row_key <$> df) →
  let forced := (apply_force_keep_rules str_contains df rules).1 in
  let candidates := (apply_force_keep_rules str_contains df rules).2 in
  let final_list_df := final_list str_contains sort_values rules Q T df in
  final_list_df = forced ++ quota_select Q T (sort_values candidates) ∧
  (∀ r, r ∈ final_list_df → r ∈ df) ∧
  NoDup (row_key <$> final_list_df) ∧
  Z.of_nat (length final_list_df)
    ≤ Z.of_nat (length forced) + Z.max T 0.
Proof.
  intros Hperm Hnd. cbv zeta.
  rewrite final_list_unfold, apply_force_keep_rules_filters. cbn [fst snd].
  set (forced := filter (λ r, force_keep_mask str_contains rules r = true) df).
  set (candidates :=
         filter (λ r, ¬ force_keep_mask str_contains rules r = true) df).
  pose proof (merged_keys_distinct rules Q T df Hperm Hnd) as Hmerged.
  fold forced candidates in Hmerged.
  assert (Heq : drop_duplicates row_key
                  (forced ++ quota_select Q T (sort_values candidates))
                = forced ++ quota_select Q T (sort_values candidates)).
  { apply drop_duplicates_from_distinct; [done|].
    intros x _. apply not_elem_of_nil. }
  rewrite Heq.
  destruct (quota_select_inv Q T (sort_values candidates))
    as (Hsub & Hlen & _).
  split; [done|]. split; [|split; [done|]].
  - intros r [Hr|Hr]%elem_of_app.
    + by apply list_elem_of_filter in Hr as [_ ?].
    + apply (elem_of_sublist _ _ _ Hr) in Hsub.
      rewrite (Hperm candidates) in Hsub.
      by apply list_elem_of_filter in Hsub as [_ ?].
  - rewrite length_app. lia.
Qed.

(** X18. When the sort returns its input rearranged and no two rows of
    the scored frame share url and title, the final dedup of line 289
    drops nothing: the final list is the forced rows in frame order
    followed by the quota selection, all its rows are rows of the scored
    frame, no two share url and title, and it holds at most the forced
    rows plus [max(T, 0)] rows. *)
Theorem final_list_is_forced_then_selected rules Q T df :
  (∀ l, sort_values l ≡ₚ l) → NoDup (row_key <$> df) →
  let forced := (apply_force_keep_rules str_contains df rules).1 in
  let candidates := (apply_force_keep_rules str_contains df rules).2 in
  let final_list_df := final_list str_contains sort_values rules Q T df in
  final_list_df = forced ++ quota_select Q T (sort_values candidates) ∧
  (∀ r, r ∈ final_list_df → r ∈ df) ∧
  NoDup (row_key <$> final_list_df) ∧
  Z.of_nat (length final_list_df)
    ≤ Z.of_nat (length forced) + Z.max T 0.
Proof. apply final_list_plain. Qed.

(** X19. The final list of a run: when the sort returns its input
    rearranged, every row of the final list is a fetched row that is
    new and published today, carrying the score and category of the
    scoring step, and no two rows of the final list have the same title
    or the same url-and-title pair. *)
Theorem final_list_rows_are_todays_news
    scoring_service local_date_of cfg today t_write t_clean tbl results
    final_list_df :
  let raw := concat (filter (λ df : list Article, df ≠ []) results) in
  let existing := DatabaseManager.get_existing_urls tbl in
  let batch := today_new_articles local_date_of today existing raw in
  let classified := ai_rank_and_classify_articles scoring_service batch in
  (∀ l, sort_values l ≡ₚ l) →
  exit (main scoring_service local_date_of str_contains sort_values
             cfg today t_write t_clean tbl results) = Done final_list_df →
  (∀ r, r ∈ final_list_df →
     r ∈ classified ∧ art r ∈ raw ∧ (url (art r) ∉ existing) ∧
     published_today local_date_of today (art r) = true) ∧
  NoDup ((λ r, title (art r)) <$> final_list_df).
Proof.
  intros raw existing batch classified Hperm.
  rewrite main_cascade. fold raw existing batch classified.
  repeat case_decide; try done.
  destruct (scoring_failed classified); [done|].
  destruct (category_column_missing _ _ _ _ _ _); [done|].
  cbn. intros [= <-].
  assert (Htitles : NoDup ((λ r, title (art r)) <$> classified)).
  { rewrite (list_fmap_compose art title). unfold classified.
    rewrite art_classify. apply NoDup_drop_duplicates. }
  rewrite (add_frequency_bonus_distinct_titles classified Htitles).
  assert (Hkeys : NoDup (row_key <$> classified)).
  { apply (NoDup_fmap_1 snd). by rewrite <- list_fmap_compose. }
  destruct (final_list_plain (FORCE_KEEP_RULES cfg) (CATEGORY_QUOTAS cfg)
              (TOTAL_LIMIT cfg) classified Hperm Hkeys)
    as (_ & Hrows & Hnd & _).
  split.
  - intros r Hr. apply Hrows in Hr. split; [done|].
    assert (Ha : art r ∈ batch).
    { unfold classified in Hr.
      rewrite <- (art_classify scoring_service batch).
      apply list_elem_of_fmap. eauto. }
    by apply today_new_articles_fresh in Ha.
  - apply NoDup_fmap_2_strong; [|by apply NoDup_fmap_1 in Hnd].
    intros x y Hx Hy Heq. apply Hrows in Hx, Hy.
    apply list_elem_of_lookup in Hx as [i Hi], Hy as [j Hj].
    assert (i = j).
    { apply (NoDup_lookup _ i j (title (art x)) Htitles).
      - by rewrite list_lookup_fmap, Hi.
      - by rewrite list_lookup_fmap, Hj, Heq. }
    congruence.
Qed.

End Selection.

(** * Properties of the summarisation step *)

Section SummariesProperties.

Context {Row : Type} (full_content : Row → Text).

Implicit Types (x : Text) (df : list Row).

Lemma truncated_short x : (length x ≤ 200)%nat → truncated x = x.
Proof. intros H. unfold truncated. by rewrite decide_False by lia. Qed.

Lemma truncated_long x :
  (200 < length x)%nat → truncated x = take 200 x ++ ELLIPSIS.
Proof. intros H. unfold truncated. by rewrite decide_True. Qed.

Lemma zip_with_column {B} (f : Row → B) df :
  zip df (f <$> df) = (λ r, (r, f r)) <$> df.
Proof. induction df as [|r df IH]; [done|]. cbn. by f_equal. Qed.

(** The frame the step returns, row by row. *)
Lemma ai_summarize_content_rows ready summarize df :
  ai_summarize_content full_content ready summarize df =
    (λ r, (r, if ready then summary_of summarize (full_content r)
              else truncated (full_content r))) <$> df.
Proof.
  unfold ai_summarize_content, summaries.
  destruct df as [|r df]; [done|]. by destruct ready; rewrite zip_with_column.
Qed.

(** X20. The summarisation step keeps the rows and their order and adds
    one summary per row; each summary is the row's text, the text cut
    to 200 characters with three dots, or the answer of the service for
    that text. *)
Theorem summaries_one_per_row ready summarize df :
  (ai_summarize_content full_content ready summarize df).*1 = df ∧
  ∀ r s, (r, s) ∈ ai_summarize_content full_content ready summarize df →
    r ∈ df ∧
    (s = full_content r ∨ s = truncated (full_content r) ∨
     (ready = true ∧ (50 ≤ length (full_content r))%nat ∧
      summarize (full_content r) = Some s)).
Proof.
  rewrite ai_summarize_content_rows. split.
  - rewrite <- list_fmap_compose. apply list_fmap_id.
  - intros r s (r' & [= -> ->] & Hr)%list_elem_of_fmap. split; [done|].
    destruct ready; [|by right; left].
    unfold summary_of. case_decide as Hc; [by left|].
    destruct (summarize (full_content r')) eqn:Hs; [|by right; left].
    right; right. split; [done|]. split; [|done].
    apply Nat.nlt_ge. intros ?. apply Hc. by right.
Qed.

(** X21. A text of fewer than 50 characters, the empty text included, is
    its own summary whether or not the model is available, and the
    service is not asked for it: two services that agree on the texts of
    50 characters and more give the same frame. *)
Theorem short_content_passes_through ready summarize df :
  (∀ r s, (r, s) ∈ ai_summarize_content full_content ready summarize df →
          (length (full_content r) < 50)%nat → s = full_content r) ∧
  (∀ summarize',
     (∀ x, (50 ≤ length x)%nat → summarize' x = summarize x) →
     ai_summarize_content full_content ready summarize' df
     = ai_summarize_content full_content ready summarize df).
Proof.
  split.
  - rewrite ai_summarize_content_rows.
    intros r s (r' & [= -> ->] & Hr)%list_elem_of_fmap Hshort.
    destruct ready; [|apply truncated_short; lia].
    unfold summary_of. rewrite decide_True; [done|by right].
  - intros summarize' Hagree. rewrite !ai_summarize_content_rows.
    apply list_fmap_ext. intros i r _. f_equal.
    destruct ready; [|done]. unfold summary_of.
    case_decide as Hc; [done|]. rewrite Hagree; [done|].
    apply Nat.nlt_ge. intros ?. apply Hc. by right.
Qed.

(** X22. The fallback: when the model is not available or the call for a
    row raises, the summary is the row's text if that has at most 200
    characters, and otherwise its first 200 characters followed by three
    dots; it never has more than 203 characters and begins like the
    text. *)
Theorem fallback_summary_bounded ready summarize df r s :
  (r, s) ∈ ai_summarize_content full_content ready summarize df →
  ready = false ∨ summarize (full_content r) = None →
  s = truncated (full_content r) ∧
  (length s ≤ 203)%nat ∧
  take 200 s = take 200 (full_content r) ∧
  ((length (full_content r) ≤ 200)%nat → s = full_content r) ∧
  ((200 < length (full_content r))%nat →
     s = take 200 (full_content r) ++ ELLIPSIS).
Proof.
  rewrite ai_summarize_content_rows.
  intros (r' & [= -> ->] & Hr)%list_elem_of_fmap Hfail.
  assert (Hs : (if ready then summary_of summarize (full_content r')
                else truncated (full_content r'))
               = truncated (full_content r')).
  { destruct ready; [|done]. destruct Hfail as [?|Hnone]; [done|].
    unfold summary_of. rewrite Hnone. case_decide as Hc; [|done].
    symmetry. apply truncated_short.
    destruct Hc as [->|?]; cbn; lia. }
  rewrite Hs. split; [done|].
  destruct (decide (200 < length (full_content r'))%nat) as [Hlong|Hshort].
  - rewrite (truncated_long _ Hlong). split; [|split; [|split]].
    + rewrite length_app, length_take.
      change (length ELLIPSIS) with 3%nat. lia.
    + rewrite take_app_le by (rewrite length_take; lia).
      rewrite take_take. f_equal.
    + lia.
    + done.
  - rewrite truncated_short by lia. split; [lia|]. split; [done|].
    split; [done|lia].
Qed.

(** X23. A failed model initialisation gives the frame of a run in which
    the model is available and every call raises. *)
Theorem model_failure_as_call_failures summarize df :
  ai_summarize_content full_content false summarize df
  = ai_summarize_content full_content true (λ _, None) df.
Proof.
  rewrite !ai_summarize_content_rows. apply list_fmap_ext. intros i r _.
  f_equal. unfold summary_of. case_decide as Hc; [|done].
  apply truncated_short. destruct Hc as [->|?]; cbn; lia.
Qed.

End SummariesProperties.

Lemma failed_source_ignored_witness :
  (∃ name parse,
     parser_class site_broken = Some name ∧
     sample_parsers name = Some parse ∧
     (parse site_broken = None ∨ parse site_broken = Some [])) ∧
  parse_single_source sample_parsers site_broken = [] ∧
  sample_main sample_config 1 1000 1001 ∅
    (parse_single_source sample_parsers <$> [site_ok; site_broken])
  = sample_main sample_config 1 1000 1001 ∅
      (parse_single_source sample_parsers <$> [site_ok]).
Proof.
  assert (H : ∃ name parse,
     parser_class site_broken = Some name ∧
     sample_parsers name = Some parse ∧
     (parse site_broken = None ∨ parse site_broken = Some [])).
  { exists "BrokenParser", (λ _, None). by repeat split; [..|left]. }
  split; [exact H|].
  destruct (failed_source_ignored
              (service_answers sample_items) sample_dates contains_literal
              sort_desc sample_parsers site_broken
              (or_intror (or_intror (or_intror H)))) as [Hnil Hrun].
  split; [exact Hnil|].
  exact (Hrun sample_config 1 1000 1001 ∅ [site_ok] []).
Defined.

Lemma rule_without_effect_witness :
  values (mkRule (Some "keyword") None None) = None ∧
  force_keep_mask contains_literal [mkRule (Some "keyword") None None]
    (mkScored c_flood 5 "社会与文化") = false.
Proof.
  split; [reflexivity|].
  apply (rule_without_effect contains_literal
           (mkRule (Some "keyword") None None)).
  right; right; left. split; [discriminate|reflexivity].
Defined.

Lemma quota_skipped_row_reason_witness :
  tech 7 ∈ tech_candidates ∧
  tech_quota !! category (tech 7) = Some 2 ∧
  (tech 7 ∉ quota_select tech_quota 3 tech_candidates) ∧
  2 ≤ Z.of_nat (length (filter (λ r, category r = "tech")
                          (quota_select tech_quota 3 tech_candidates))).
Proof.
  assert (H1 : tech 7 ∈ tech_candidates) by by_evaluation.
  assert (H2 : tech_quota !! category (tech 7) = Some 2) by (by vm_compute).
  assert (H3 : tech 7 ∉ quota_select tech_quota 3 tech_candidates)
    by by_evaluation.
  split; [exact H1|]. split; [exact H2|]. split; [exact H3|].
  destruct (quota_skipped_row_reason tech_quota 3 tech_candidates
              (tech 7) 2 H1 H2 H3) as [H|H]; [|exact H].
  vm_compute in H. by destruct H.
Defined.

Lemma quota_selection_ranked_witness :
  ranks sort_desc ∧
  StronglySorted score_ge
    (quota_select tech_quota 3 (sort_desc (reverse tech_candidates))).
Proof.
  split; [exact sort_desc_contract|].
  exact (proj2 (proj2 (quota_selection_ranked sort_desc tech_quota 3
                         (reverse tech_candidates) sort_desc_contract))).
Defined.

Lemma final_list_is_forced_then_selected_witness :
  let df := [ mkScored a_chip 7 "科技与商业"; mkScored c_flood 5 "社会与文化";
              mkScored f_vote 3 "国内政策" ] in
  (∀ l, sort_desc l ≡ₚ l) ∧ NoDup (row_key <$> df) ∧
  final_list contains_literal sort_desc sample_rules sample_quotas 2 df
    = [ mkScored c_flood 5 "社会与文化"; mkScored f_vote 3 "国内政策";
        mkScored a_chip 7 "科技与商业" ].
Proof.
  intros df.
  assert (Hperm : ∀ l, sort_desc l ≡ₚ l)
    by (intros l; apply sort_desc_contract).
  assert (Hnd : NoDup (row_key <$> df)) by by_evaluation.
  split; [exact Hperm|]. split; [exact Hnd|].
  rewrite (proj1 (final_list_is_forced_then_selected contains_literal
                    sort_desc sample_rules sample_quotas 2 df Hperm Hnd)).
  by vm_compute.
Defined.

Lemma final_list_rows_are_todays_news_witness :
  let results := [[a_chip; b_chip]; []; [c_flood; d_old; e_chip; f_vote]] in
  (∀ l, sort_desc l ≡ₚ l) ∧
  ∃ final_list_df,
    exit (sample_main sample_config 1 1000 1001 ∅ results)
      = Done final_list_df ∧
    NoDup ((λ r, title (art r)) <$> final_list_df).
Proof.
  intros results.
  assert (Hperm : ∀ l, sort_desc l ≡ₚ l)
    by (intros l; apply sort_desc_contract).
  split; [exact Hperm|]. eexists. split; [by vm_compute|].
  exact (proj2 (final_list_rows_are_todays_news contains_literal sort_desc
                  (service_answers sample_items) sample_dates sample_config
                  1 1000 1001 ∅ results _ Hperm eq_refl)).
Defined.

Lemma fallback_summary_bounded_witness :
  let out := ai_summarize_content id true service_silent
               [long_text; short_text] in
  (long_text, take 200 long_text ++ ELLIPSIS) ∈ out ∧
  service_silent (id long_text) = None ∧
  (length (take 200 long_text ++ ELLIPSIS) ≤ 203)%nat.
Proof.
  intros out.
  assert (Hin : (long_text, take 200 long_text ++ ELLIPSIS) ∈ out)
    by by_evaluation.
  split; [exact Hin|]. split; [reflexivity|].
  exact (proj1 (proj2 (fallback_summary_bounded id true service_silent
                         [long_text; short_text] long_text _ Hin
                         (or_intror eq_refl)))).
Defined.
